(** * The event bridge of [examples/kbrdhook.cpp]

    [event_sender_range_factory] adapts a callback-driven event source to a
    range of senders.  The delivery thread runs [event_function::operator()],
    the consumer runs [event_operation_state::start]; both only touch the two
    atomics [pendingOperation_] and [complete_with_event_], with the default
    (sequentially consistent) memory order.  The embedding therefore is an
    interleaving machine: every atomic read-modify-write is one step of the
    thread that executes it, and a scheduler chooses whose step comes next.

    Calls that leave the component ([registerFn_], [unregisterFn_],
    [set_value], [std::terminate]) are recorded on a trace.  Where C++ gives
    no behaviour (a call through a function pointer of another
    instantiation, a use of the factory after its destruction, the destructor
    of a range when the lifetime of the registration has ended) the machine
    has no step, and it has none after [std::terminate]. *)

From stdpp Require Import base tactics option list numbers strings.

Set Default Proof Using "Type".

(** ** Atomics *)

(** [std::atomic<T>::exchange(desired)]: the pair of the value returned and
    the new content of the cell. *)
Definition exchange {A : Type} (cell desired : A) : A * A := (cell, desired).

(** [std::atomic<T>::compare_exchange_strong(expected, desired)]: the pair of
    the success flag and the new content of the cell. *)
Definition compare_exchange_strong {A : Type} `{EqDecision A}
    (cell expected desired : A) : bool * A :=
  if decide (cell = expected) then (true, desired) else (false, cell).

(** ** Data *)

(** Address of an [event_operation_state] object; a [void*] is an
    [option ptr], [None] being [nullptr]. *)
Abbreviation ptr := nat (only parsing).

(** [complete_function_t]: a pointer to a function [void(void*, EventType)].
    The only functions whose address is ever stored are the static members
    [event_operation_state<StopToken, Receiver>::complete_with_event], one
    per instantiation of the class template; the number names the
    instantiation. *)
Abbreviation complete_function_t := nat (only parsing).

(** The one factory of the model; every [factory_] field points at it. *)
Inductive factory_ptr := this.

(** Whether a type has a trivial destructor.  The call of the destructor of
    an object of such a type has no effect and does not end its lifetime;
    the call of another destructor does, and a second call, or a later use
    of the object, has no defined behaviour. *)
Class TriviallyDestructible (T : Type) : Set := trivially_destructible : bool.
#[global] Hint Mode TriviallyDestructible ! : typeclass_instances.

(** An empty closure and an integral handle. *)
#[global] Instance unit_destructible : TriviallyDestructible unit := true.
#[global] Instance nat_destructible : TriviallyDestructible nat := true.

Section Bridge.

Context {EventType StopToken Receiver Registration : Type}
        `{!TriviallyDestructible Registration}.

(** [union storage]: which member is active; [storage_destroyed] when the
    lifetime of the registration has ended. *)
Inductive storage :=
| storage_empty (empty_ : Z)
| storage_registration (registration_ : Registration)
| storage_destroyed.

(** The data members of [event_sender_range_factory] ([registerFn_] and
    [unregisterFn_] are the external collaborators: their calls appear on the
    trace, and what [registerFn_] returns comes with the action). *)
Record event_sender_range_factory := Factory {
  storage_ : storage;
  pendingOperation_ : option ptr;
  complete_with_event_ : option complete_function_t;
}.

Record event_operation_state := OperationState {
  op_inst : complete_function_t;   (* the instantiation this object belongs to *)
  op_factory_ : factory_ptr;
  op_stopToken_ : StopToken;
  op_receiver_ : Receiver;
}.

Record event_sender := Sender {
  es_factory_ : factory_ptr;
  es_stopToken_ : StopToken;
}.

(** The closure [[this, token](int){ return event_sender<StopToken>{this, token}; }]. *)
Record senderFactory := SenderFactory {
  captured_this : factory_ptr;
  captured_token : StopToken;
}.

(** [sender_range<decltype(ints | senderFactory)>]; [ints] is [iota(0)], so
    the view is determined by the closure. *)
Record sender_range := SenderRange {
  sr_factory_ : factory_ptr;
  range_ : senderFactory;
}.

(** Program points of one call of [event_function::operator()]. *)
Inductive event_function_pc :=
| at_exchange_pending                       (* before line 43 *)
| at_spin (op : ptr)                        (* in the loop of lines 46-48 *)
| at_invoke (op : ptr) (complete_with_event : complete_function_t)  (* line 49 *)
| ef_returned (op : option ptr).            (* left, with this value of [op] *)

(** Program points of one call of [event_operation_state::start]. *)
Inductive start_pc :=
| at_cas_pending                            (* before line 80 *)
| at_cas_complete                           (* before line 84 *)
| st_returned.

(** A call in progress (or finished) on some thread. *)
Inductive frame :=
| in_event_function (event : EventType) (pc : event_function_pc)
| in_start (this_op : ptr) (pc : start_pc).

(** Calls that leave the component. *)
Inductive event :=
| ev_register (reg : Registration)
| ev_unregister (reg : Registration)
| ev_set_value (tid : nat) (op : ptr) (receiver : Receiver) (value : EventType)
| ev_terminate.

Record system := System {
  factory : event_sender_range_factory;
  factory_alive : bool;
  ranges : list (option sender_range);       (* [None]: destroyed *)
  senders : list event_sender;
  heap : list event_operation_state;
  frames : list frame;
  trace : list event;
  terminated : bool;
}.

(** What the environment (consumer, event source, scheduler) can do. *)
Inductive action :=
| call_start (token : StopToken) (reg : Registration)
| copy_range (rid : nat)
| destroy_range (rid : nat)
| range_next (rid : nat) (i : nat)
| call_connect (sid : nat) (inst : complete_function_t) (receiver : Receiver)
| call_operation_start (p : ptr)
| call_event_function (e : EventType)
| thread_step (tid : nat)
| destroy_factory.

(** ** Field updates *)

Definition set_pendingOperation (v : option ptr) (f : event_sender_range_factory) :=
  Factory (storage_ f) v (complete_with_event_ f).
Definition set_complete_with_event (v : option complete_function_t)
    (f : event_sender_range_factory) :=
  Factory (storage_ f) (pendingOperation_ f) v.
Definition set_storage (v : storage) (f : event_sender_range_factory) :=
  Factory v (pendingOperation_ f) (complete_with_event_ f).

Definition set_factory (f : event_sender_range_factory) (s : system) :=
  System f (factory_alive s) (ranges s) (senders s) (heap s) (frames s) (trace s)
    (terminated s).
Definition set_factory_alive (b : bool) (s : system) :=
  System (factory s) b (ranges s) (senders s) (heap s) (frames s) (trace s)
    (terminated s).
Definition set_ranges (r : list (option sender_range)) (s : system) :=
  System (factory s) (factory_alive s) r (senders s) (heap s) (frames s) (trace s)
    (terminated s).
Definition set_senders (l : list event_sender) (s : system) :=
  System (factory s) (factory_alive s) (ranges s) l (heap s) (frames s) (trace s)
    (terminated s).
Definition set_heap (h : list event_operation_state) (s : system) :=
  System (factory s) (factory_alive s) (ranges s) (senders s) h (frames s) (trace s)
    (terminated s).
Definition set_frames (l : list frame) (s : system) :=
  System (factory s) (factory_alive s) (ranges s) (senders s) (heap s) l (trace s)
    (terminated s).
Definition set_frame (tid : nat) (fr : frame) (s : system) :=
  set_frames (<[tid := fr]> (frames s)) s.
Definition emit (ev : event) (s : system) :=
  System (factory s) (factory_alive s) (ranges s) (senders s) (heap s) (frames s)
    (trace s ++ [ev]) (terminated s).

(** [std::terminate()]: the process is gone. *)
Definition std_terminate (s : system) : system :=
  let s1 := emit ev_terminate s in
  System (factory s1) (factory_alive s1) (ranges s1) (senders s1) (heap s1)
    (frames s1) (trace s1) true.

(** ** The functions of the source *)

(** [create_event_sender_range]: [{registerFn, unregisterFn, {0}}] and the
    default member initialisers. *)
Definition create_event_sender_range : system :=
  System (Factory (storage_empty 0) None None) true [] [] [] [] [] false.

(** [event_operation_state::complete_with_event] of instantiation [inst],
    called on thread [tid].  [selfVoid] is cast to that instantiation; an
    address that holds no such object has no defined behaviour. *)
Definition complete_with_event (inst : complete_function_t) (tid : nat)
    (selfVoid : ptr) (event : EventType) (s : system) : option system :=
  match heap s !! selfVoid with
  | Some self =>
      if decide (op_inst self = inst)
      then Some (emit (ev_set_value tid selfVoid (op_receiver_ self) event) s)
      else None
  | None => None
  end.

(** One step of [event_function::operator()] on thread [tid]. *)
Definition event_function_step (tid : nat) (event : EventType)
    (pc : event_function_pc) (s : system) : option system :=
  match pc with
  | at_exchange_pending =>
      let '(op, cell) := exchange (pendingOperation_ (factory s)) None in
      let s1 := set_factory (set_pendingOperation cell (factory s)) s in
      match op with
      | Some p => Some (set_frame tid (in_event_function event (at_spin p)) s1)
      | None => Some (set_frame tid (in_event_function event (ef_returned None)) s1)
      end
  | at_spin p =>
      let '(cwe, cell) := exchange (complete_with_event_ (factory s)) None in
      let s1 := set_factory (set_complete_with_event cell (factory s)) s in
      match cwe with
      | Some f => Some (set_frame tid (in_event_function event (at_invoke p f)) s1)
      | None => Some (set_frame tid (in_event_function event (at_spin p)) s1)
      end
  | at_invoke p f =>
      s1 ← complete_with_event f tid p event s;
      Some (set_frame tid (in_event_function event (ef_returned (Some p))) s1)
  | ef_returned _ => None
  end.

(** One step of [event_operation_state::start] on thread [tid]. *)
Definition operation_start_step (tid : nat) (this_op : ptr) (pc : start_pc)
    (s : system) : option system :=
  match pc with
  | at_cas_pending =>
      let '(ok, cell) :=
        compare_exchange_strong (pendingOperation_ (factory s)) None (Some this_op) in
      if ok
      then Some (set_frame tid (in_start this_op at_cas_complete)
                   (set_factory (set_pendingOperation cell (factory s)) s))
      else Some (std_terminate s)
  | at_cas_complete =>
      self ← heap s !! this_op;
      let '(ok, cell) :=
        compare_exchange_strong (complete_with_event_ (factory s)) None
          (Some (op_inst self)) in
      if ok
      then Some (set_frame tid (in_start this_op st_returned)
                   (set_factory (set_complete_with_event cell (factory s)) s))
      else Some (std_terminate s)
  | st_returned => None
  end.

(** [event_sender::connect], for a receiver of instantiation [inst]. *)
Definition connect (snd : event_sender) (inst : complete_function_t)
    (receiver : Receiver) : event_operation_state :=
  OperationState inst (es_factory_ snd) (es_stopToken_ snd) receiver.

(** The closure's call operator. *)
Definition senderFactory_call (c : senderFactory) (_ : Z) : event_sender :=
  Sender (captured_this c) (captured_token c).

(** Dereferencing the iterator at position [i] of [ints | senderFactory]. *)
Definition range_deref (r : sender_range) (i : nat) : event_sender :=
  senderFactory_call (range_ r) (Z.of_nat i).

(** [event_sender_range_factory::start(token)]; [reg] is what
    [registerFn_(event_function_)] returned. *)
Definition factory_start (token : StopToken) (reg : Registration) (s : system)
    : system :=
  let s1 := emit (ev_register reg) s in
  let s2 := set_factory (set_storage (storage_registration reg) (factory s1)) s1 in
  set_ranges (ranges s2 ++ [Some (SenderRange this (SenderFactory this token))]) s2.

(** [registration_.~registration_t()], line 114: what [storage_] holds
    afterwards. *)
Definition registration_destructor (reg : Registration) : storage :=
  if trivially_destructible (T:=Registration) then storage_registration reg
  else storage_destroyed.

(** [sender_range::~sender_range] of range [rid]: both lines are executed
    whatever ranges have been destroyed before, so the destructor of a copy
    calls [unregisterFn_] again.  It has no step when the lifetime of the
    registration has ended. *)
Definition sender_range_destructor (rid : nat) (s : system) : option system :=
  match storage_ (factory s) with
  | storage_registration reg =>
      let s1 := emit (ev_unregister reg) s in
      let s2 := set_factory (set_storage (registration_destructor reg) (factory s1)) s1 in
      Some (set_ranges (<[rid := None]> (ranges s2)) s2)
  | _ => None
  end.

Definition live_range (s : system) (rid : nat) : option sender_range :=
  mjoin (ranges s !! rid).

(** ** The machine *)

Definition step (a : action) (s : system) : option system :=
  if terminated s then None
  else if negb (factory_alive s) then None
  else match a with
  | call_start token reg => Some (factory_start token reg s)
  | copy_range rid =>
      r ← live_range s rid; Some (set_ranges (ranges s ++ [Some r]) s)
  | destroy_range rid =>
      _ ← live_range s rid; sender_range_destructor rid s
  | range_next rid i =>
      r ← live_range s rid; Some (set_senders (senders s ++ [range_deref r i]) s)
  | call_connect sid inst receiver =>
      snd ← senders s !! sid;
      Some (set_heap (heap s ++ [connect snd inst receiver]) s)
  | call_operation_start p =>
      _ ← heap s !! p; Some (set_frames (frames s ++ [in_start p at_cas_pending]) s)
  | call_event_function e =>
      Some (set_frames (frames s ++ [in_event_function e at_exchange_pending]) s)
  | thread_step tid =>
      fr ← frames s !! tid;
      match fr with
      | in_event_function e pc => event_function_step tid e pc s
      | in_start p pc => operation_start_step tid p pc s
      end
  | destroy_factory => Some (set_factory_alive false s)
  end.

Fixpoint run (s : system) (acts : list action) : option system :=
  match acts with
  | [] => Some s
  | a :: acts' => s' ← step a s; run s' acts'
  end.

(** The cases of [step], one per path through the functions above. *)
Inductive step_view : action → system → system → Prop :=
| sv_start token reg s :
    step_view (call_start token reg) s (factory_start token reg s)
| sv_copy rid r s :
    live_range s rid = Some r →
    step_view (copy_range rid) s (set_ranges (ranges s ++ [Some r]) s)
| sv_destroy rid r reg s :
    live_range s rid = Some r →
    storage_ (factory s) = storage_registration reg →
    step_view (destroy_range rid) s
      (set_ranges (<[rid := None]> (ranges s))
         (set_factory (set_storage (registration_destructor reg) (factory s))
            (emit (ev_unregister reg) s)))
| sv_next rid i r s :
    live_range s rid = Some r →
    step_view (range_next rid i) s
      (set_senders (senders s ++ [range_deref r i]) s)
| sv_connect sid inst receiver snd s :
    senders s !! sid = Some snd →
    step_view (call_connect sid inst receiver) s
      (set_heap (heap s ++ [connect snd inst receiver]) s)
| sv_operation_start p self s :
    heap s !! p = Some self →
    step_view (call_operation_start p) s
      (set_frames (frames s ++ [in_start p at_cas_pending]) s)
| sv_event_function e s :
    step_view (call_event_function e) s
      (set_frames (frames s ++ [in_event_function e at_exchange_pending]) s)
| sv_take tid e p s :
    frames s !! tid = Some (in_event_function e at_exchange_pending) →
    pendingOperation_ (factory s) = Some p →
    step_view (thread_step tid) s
      (set_frame tid (in_event_function e (at_spin p))
         (set_factory (set_pendingOperation None (factory s)) s))
| sv_drop tid e s :
    frames s !! tid = Some (in_event_function e at_exchange_pending) →
    pendingOperation_ (factory s) = None →
    step_view (thread_step tid) s
      (set_frame tid (in_event_function e (ef_returned None))
         (set_factory (set_pendingOperation None (factory s)) s))
| sv_spin_hit tid e p f s :
    frames s !! tid = Some (in_event_function e (at_spin p)) →
    complete_with_event_ (factory s) = Some f →
    step_view (thread_step tid) s
      (set_frame tid (in_event_function e (at_invoke p f))
         (set_factory (set_complete_with_event None (factory s)) s))
| sv_spin_miss tid e p s :
    frames s !! tid = Some (in_event_function e (at_spin p)) →
    complete_with_event_ (factory s) = None →
    step_view (thread_step tid) s
      (set_frame tid (in_event_function e (at_spin p))
         (set_factory (set_complete_with_event None (factory s)) s))
| sv_invoke tid e p f self s :
    frames s !! tid = Some (in_event_function e (at_invoke p f)) →
    heap s !! p = Some self →
    op_inst self = f →
    step_view (thread_step tid) s
      (set_frame tid (in_event_function e (ef_returned (Some p)))
         (emit (ev_set_value tid p (op_receiver_ self) e) s))
| sv_cas_pending_ok tid p s :
    frames s !! tid = Some (in_start p at_cas_pending) →
    pendingOperation_ (factory s) = None →
    step_view (thread_step tid) s
      (set_frame tid (in_start p at_cas_complete)
         (set_factory (set_pendingOperation (Some p) (factory s)) s))
| sv_cas_pending_fail tid p q s :
    frames s !! tid = Some (in_start p at_cas_pending) →
    pendingOperation_ (factory s) = Some q →
    step_view (thread_step tid) s (std_terminate s)
| sv_cas_complete_ok tid p self s :
    frames s !! tid = Some (in_start p at_cas_complete) →
    heap s !! p = Some self →
    complete_with_event_ (factory s) = None →
    step_view (thread_step tid) s
      (set_frame tid (in_start p st_returned)
         (set_factory (set_complete_with_event (Some (op_inst self)) (factory s)) s))
| sv_cas_complete_fail tid p self f s :
    frames s !! tid = Some (in_start p at_cas_complete) →
    heap s !! p = Some self →
    complete_with_event_ (factory s) = Some f →
    step_view (thread_step tid) s (std_terminate s)
| sv_destroy_factory s :
    step_view destroy_factory s (set_factory_alive false s).

(** ** Observations on frames and traces *)

Fixpoint countb {A : Type} (P : A → bool) (l : list A) : nat :=
  match l with
  | [] => 0
  | x :: l' => (if P x then 1 else 0) + countb P l'
  end.

(** [about o p]: operation [p] is among those [o] selects ([None]: all). *)
Definition about (o : option ptr) (p : ptr) : bool :=
  match o with
  | None => true
  | Some q => bool_decide (q = p)
  end.

Definition fr_is_start (o : option ptr) (fr : frame) : bool :=
  match fr with in_start p _ => about o p | _ => false end.
Definition fr_cas_pending (fr : frame) : bool :=
  match fr with in_start _ at_cas_pending => true | _ => false end.
Definition fr_cas_complete (fr : frame) : bool :=
  match fr with in_start _ at_cas_complete => true | _ => false end.
Definition fr_st_returned (fr : frame) : bool :=
  match fr with in_start _ st_returned => true | _ => false end.
(** [start] on it has passed line 80. *)
Definition fr_published (o : option ptr) (fr : frame) : bool :=
  match fr with
  | in_start p at_cas_complete | in_start p st_returned => about o p
  | _ => false
  end.
Definition fr_spin (fr : frame) : bool :=
  match fr with in_event_function _ (at_spin _) => true | _ => false end.
Definition fr_invoke (fr : frame) : bool :=
  match fr with in_event_function _ (at_invoke _ _) => true | _ => false end.
(** A delivery holds the operation in its local [op]. *)
Definition fr_holds (o : option ptr) (fr : frame) : bool :=
  match fr with
  | in_event_function _ (at_spin p) | in_event_function _ (at_invoke p _) => about o p
  | _ => false
  end.

Definition ev_completes (o : option ptr) (ev : event) : bool :=
  match ev with ev_set_value _ p _ _ => about o p | _ => false end.
Definition ev_is_register (ev : event) : bool :=
  match ev with ev_register _ => true | _ => false end.
Definition ev_is_unregister (ev : event) : bool :=
  match ev with ev_unregister _ => true | _ => false end.

Definition b2n (b : bool) : nat := if b then 1 else 0.

Definition pending_about (o : option ptr) (s : system) : bool :=
  match pendingOperation_ (factory s) with Some p => about o p | None => false end.
Definition trampoline_set (s : system) : bool :=
  bool_decide (is_Some (complete_with_event_ (factory s))).

(** How often [set_value] reached operation [p]. *)
Definition completions_of (p : ptr) (tr : list event) : nat :=
  countb (ev_completes (Some p)) tr.
(** How often [start] was called on operation [p]. *)
Definition starts_of (p : ptr) (l : list frame) : nat :=
  countb (fr_is_start (Some p)) l.

(** What call [tid] of the event function handed over: operation, receiver
    and value of each [set_value] it made. *)
Fixpoint deliveries_by (tid : nat) (tr : list event) : list (ptr * Receiver * EventType) :=
  match tr with
  | [] => []
  | ev_set_value t p r e :: tr' =>
      if bool_decide (t = tid) then (p, r, e) :: deliveries_by tid tr'
      else deliveries_by tid tr'
  | _ :: tr' => deliveries_by tid tr'
  end.

(** The calls of [registerFn_] and [unregisterFn_], in order. *)
Fixpoint registration_events (tr : list event) : list event :=
  match tr with
  | [] => []
  | ev :: tr' =>
      if ev_is_register ev || ev_is_unregister ev
      then ev :: registration_events tr'
      else registration_events tr'
  end.

(** ** Correct usage *)

(** The consumer starts an operation only when every operation started
    before has completed, and starts no operation twice. *)
Definition idle (s : system) : bool :=
  bool_decide (countb (fr_is_start None) (frames s)
               = countb (ev_completes None) (trace s)).
Definition usage_ok (a : action) (s : system) : bool :=
  match a with
  | call_operation_start p => idle s && bool_decide (starts_of p (frames s) = 0)
  | _ => true
  end.

Fixpoint run_ok (s : system) (acts : list action) : option system :=
  match acts with
  | [] => Some s
  | a :: acts' =>
      if usage_ok a s then s' ← step a s; run_ok s' acts' else None
  end.

(** Iterations of the loop of lines 46-48 in which call [tid] found
    [complete_with_event_] empty, along a run. *)
Definition spin_miss (tid : nat) (a : action) (s : system) : bool :=
  match a, frames s !! tid, complete_with_event_ (factory s) with
  | thread_step t, Some (in_event_function _ (at_spin _)), None => bool_decide (t = tid)
  | _, _, _ => false
  end.
Fixpoint spin_misses (tid : nat) (s : system) (acts : list action) : nat :=
  match acts with
  | [] => 0
  | a :: acts' =>
      match step a s with
      | Some s' => b2n (spin_miss tid a s) + spin_misses tid s' acts'
      | None => 0
      end
  end.

(** ** Replacing stop tokens *)

Definition retoken_op (g : StopToken → StopToken) (o : event_operation_state) :=
  OperationState (op_inst o) (op_factory_ o) (g (op_stopToken_ o)) (op_receiver_ o).
Definition retoken_sender (g : StopToken → StopToken) (x : event_sender) :=
  Sender (es_factory_ x) (g (es_stopToken_ x)).
Definition retoken_range (g : StopToken → StopToken) (r : sender_range) :=
  SenderRange (sr_factory_ r)
    (SenderFactory (captured_this (range_ r)) (g (captured_token (range_ r)))).
Definition retoken (g : StopToken → StopToken) (s : system) : system :=
  System (factory s) (factory_alive s)
    ((λ r : option sender_range, retoken_range g <$> r) <$> ranges s)
    (retoken_sender g <$> senders s) (retoken_op g <$> heap s) (frames s)
    (trace s) (terminated s).
Definition retoken_action (g : StopToken → StopToken) (a : action) : action :=
  match a with
  | call_start token reg => call_start (g token) reg
  | _ => a
  end.

(** All operations carry the token of the stream. *)
Record token_inv (token : StopToken) (s : system) : Prop := TokenInv {
  ti_ranges : ∀ rid r, live_range s rid = Some r → captured_token (range_ r) = token;
  ti_senders : ∀ sid snd, senders s !! sid = Some snd → es_stopToken_ snd = token;
  ti_heap : ∀ p self, heap s !! p = Some self → op_stopToken_ self = token;
}.

(** An action of the delivery path in state [s]: the source calls the event
    function, or a call of it takes a step. *)
Definition delivery_action (a : action) (s : system) : bool :=
  match a with
  | call_event_function _ => true
  | thread_step tid =>
      match frames s !! tid with
      | Some (in_event_function _ _) => true
      | _ => false
      end
  | _ => false
  end.

(** ** Invariants *)

(** Every operation whose [start] passed line 80 is in [pendingOperation_],
    or held by a delivery, or completed. *)
Definition pending_balance (o : option ptr) (s : system) : Prop :=
  countb (fr_published o) (frames s)
  = b2n (pending_about o s) + countb (fr_holds o) (frames s)
    + countb (ev_completes o) (trace s).

(** Every trampoline written at line 84 is in [complete_with_event_], or
    taken by a delivery about to call it, or has been called. *)
Definition trampoline_balance (s : system) : Prop :=
  countb fr_st_returned (frames s)
  = b2n (trampoline_set s) + countb fr_invoke (frames s)
    + countb (ev_completes None) (trace s).

Definition slot_balance (s : system) : Prop :=
  (∀ o, pending_balance o s) ∧ trampoline_balance s.

(** A call of the event function hands its event over only on its way
    out, once, to the receiver of the operation it took. *)
Definition delivery_inv (s : system) : Prop :=
  ∀ tid,
    match frames s !! tid with
    | Some (in_event_function e (ef_returned (Some p))) =>
        ∃ self, heap s !! p = Some self
                ∧ deliveries_by tid (trace s) = [(p, op_receiver_ self, e)]
    | _ => deliveries_by tid (trace s) = []
    end.

(** Operations of which [start] has been called and [set_value] has not:
    counted as the starts still before line 84, the trampolines written and
    not yet taken, and the trampolines taken and not yet called. *)
Definition in_flight (s : system) : nat :=
  countb fr_cas_pending (frames s) + countb fr_cas_complete (frames s)
  + b2n (trampoline_set s) + countb fr_invoke (frames s).

(** Operation [p] is what a delivery finds, or has found and waits for the
    trampoline of. *)
Definition in_slot (s : system) (p : ptr) : Prop :=
  pendingOperation_ (factory s) = Some p
  ∨ ∃ i e, frames s !! i = Some (in_event_function e (at_spin p)).

(** [f] is the [complete_with_event] of the instantiation of the object at [p]. *)
Definition has_inst (s : system) (p : ptr) (f : complete_function_t) : Prop :=
  ∃ self, heap s !! p = Some self ∧ op_inst self = f.

(** What holds in every state of a run under correct usage. *)
Record usage_inv (s : system) : Prop := UsageInv {
  ui_running : terminated s = false;
  ui_balance : slot_balance s;
  ui_single : in_flight s ≤ 1;
  ui_once : ∀ p, starts_of p (frames s) ≤ 1;
  ui_heap : ∀ j q pc, frames s !! j = Some (in_start q pc) → is_Some (heap s !! q);
  ui_owner : ∀ j q, frames s !! j = Some (in_start q at_cas_complete) →
             ∀ p, in_slot s p → p = q;
  ui_trampoline : ∀ f, complete_with_event_ (factory s) = Some f →
                  ∀ p, in_slot s p → has_inst s p f;
  ui_invoke : ∀ i e p f, frames s !! i = Some (in_event_function e (at_invoke p f)) →
              has_inst s p f;
}.

(** ** Registration *)

Definition is_call_start (a : action) : bool :=
  match a with call_start _ _ => true | _ => false end.



(** What holds as long as [start(token)] has not been called. *)
Record unstarted_inv (s : system) : Prop := UnstartedInv {
  un_factory : factory s = Factory (storage_empty 0) None None;
  un_trace : trace s = [];
  un_ranges : ranges s = [];
  un_senders : senders s = [];
  un_heap : heap s = [];
  un_frames : countb (fr_is_start None) (frames s) = 0
              ∧ countb (fr_holds None) (frames s) = 0;
}.

End Bridge.

Arguments system : clear implicits.
Arguments action : clear implicits.
Arguments event : clear implicits.
Arguments frame : clear implicits.

Arguments storage : clear implicits.
Arguments event_sender_range_factory : clear implicits.
Arguments event_operation_state : clear implicits.
Arguments event_sender : clear implicits.
Arguments sender_range : clear implicits.

(** ** Schedules *)

Section Schedules.
Context {EventType StopToken Receiver Registration : Type}
        `{!TriviallyDestructible Registration}.
#[local] Abbreviation action' := (action EventType StopToken Receiver Registration).
#[local] Abbreviation system' := (system EventType StopToken Receiver Registration).

(** A call that has not returned. *)
Definition unfinished (fr : frame EventType) : bool :=
  match fr with
  | in_event_function _ (ef_returned _) | in_start _ st_returned => false
  | _ => true
  end.

(** [start] on operation [q], from the call to the return, on the thread
    that gets frame [tid]. *)
Definition whole_start (q : ptr) (tid : nat) : list action' :=
  [call_operation_start q; thread_step tid; thread_step tid].

(** One call of the event function that finds an operation and its
    trampoline: lines 43, 47 and 49. *)
Definition whole_delivery (e : EventType) (tid : nat) : list action' :=
  [call_event_function e; thread_step tid; thread_step tid; thread_step tid].

(** One call of the event function that finds nothing: line 43. *)
Definition dropped_delivery (e : EventType) (tid : nat) : list action' :=
  [call_event_function e; thread_step tid].

(** The event arrives when [start] has executed line 80 only; its delivery
    takes the operation and misses the trampoline [k] times before [start]
    executes line 84. *)
Definition window_delivery (q : ptr) (e : EventType) (tid k : nat) : list action' :=
  [call_operation_start q; thread_step tid;
   call_event_function e; thread_step (S tid)]
  ++ repeat (thread_step (S tid)) k
  ++ [thread_step tid; thread_step (S tid); thread_step (S tid)].

(** The receiver and the value of each [set_value], in order. *)
Fixpoint handed_to (tr : list (event EventType Receiver Registration))
    : list (Receiver * EventType) :=
  match tr with
  | [] => []
  | ev_set_value _ _ r e :: tr' => (r, e) :: handed_to tr'
  | _ :: tr' => handed_to tr'
  end.

(** Calls of the event function that find nothing, one after the other. *)
Fixpoint drops (lost : list EventType) (tid : nat) : list action' :=
  match lost with
  | [] => []
  | d :: lost' => dropped_delivery d tid ++ drops lost' (S tid)
  end.

(** [start] on operation [q] and the delivery of [e] to it, on the threads
    that get the frames [tid] and [S tid]: with [None] the event arrives
    when [start] has returned, with [Some k] in the window, the delivery
    missing the trampoline [k] times. *)
Definition start_and_delivery (q : ptr) (e : EventType) (tid : nat)
    (window : option nat) : list action' :=
  match window with
  | None => whole_start q tid ++ whole_delivery e (S tid)
  | Some k => window_delivery q e tid k
  end.

(** A consumer that takes one sender after the other from range [rid],
    connects it and starts the operation, and a source that, for each entry
    [(early, e, window, lost)] of the script, calls the event function with
    the events [early] between [connect] and [start], with [e] while the
    operation is pending (as [window] says), and with the events [lost]
    before the consumer comes back.  [i], [sid], [p] and [tid] are the next
    position in the range, sender, operation and frame. *)
Fixpoint served (rid : nat) (inst : complete_function_t) (receiver : nat → Receiver)
    (i sid p tid : nat)
    (script : list (list EventType * EventType * option nat * list EventType))
    : list action' :=
  match script with
  | [] => []
  | (early, e, window, lost) :: script' =>
      [range_next rid i; call_connect sid inst (receiver i)]
      ++ drops early tid
      ++ start_and_delivery p e (tid + length early) window
      ++ drops lost (S (S (tid + length early)))
      ++ served rid inst receiver (S i) (S sid) (S p)
           (S (S (tid + length early)) + length lost) script'
  end.

(** The events of a script that arrive while an operation is pending. *)
Definition awaited
    (script : list (list EventType * EventType * option nat * list EventType))
    : list EventType :=
  map (λ x, x.1.1.2) script.

(** What the most recent call of [registerFn_] on a trace returned; [o]
    before the trace. *)
Fixpoint last_registered (o : option Registration)
    (tr : list (event EventType Receiver Registration)) : option Registration :=
  match tr with
  | [] => o
  | ev_register r :: tr' => last_registered (Some r) tr'
  | _ :: tr' => last_registered o tr'
  end.

(** Every call of [unregisterFn_] gets what the last call of [registerFn_]
    before it returned. *)
Fixpoint well_paired (o : option Registration)
    (tr : list (event EventType Receiver Registration)) : Prop :=
  match tr with
  | [] => True
  | ev_register r :: tr' => well_paired (Some r) tr'
  | ev_unregister r :: tr' => o = Some r ∧ well_paired o tr'
  | _ :: tr' => well_paired o tr'
  end.

(** The state after operation [q], started in [s] on the next thread, has
    been handed the event [e] by a delivery on the thread after that. *)
Definition handed_over (s : system') (q : ptr) (receiver : Receiver)
    (e : EventType) : system' :=
  set_frames
    (frames s ++ [in_start q st_returned;
                  in_event_function e (ef_returned (Some q))])
    (emit (ev_set_value (S (length (frames s))) q receiver e) s).

End Schedules.

(** ** Concrete runs *)

(** The scenario of the specification: one stream, two operations, the
    events 42 and 7, then the end of the range. *)
Definition two_events_run : list (action Z unit nat unit) :=
  [call_start tt tt;
   range_next 0 0; call_connect 0 0 100; call_operation_start 0;
   thread_step 0; thread_step 0;
   call_event_function 42%Z; thread_step 1; thread_step 1; thread_step 1;
   range_next 0 1; call_connect 1 0 101; call_operation_start 1;
   thread_step 2; thread_step 2;
   call_event_function 7%Z; thread_step 3; thread_step 3; thread_step 3;
   destroy_range 0].

(** An event before the first operation is started, and one after. *)
Definition early_event_run : list (action Z unit nat unit) :=
  [call_start tt tt;
   call_event_function 1%Z; thread_step 0;
   range_next 0 0; call_connect 0 0 100; call_operation_start 0;
   thread_step 1; thread_step 1;
   call_event_function 2%Z; thread_step 2; thread_step 2; thread_step 2].

(** One operation published, its event taken and about to be handed over. *)
Definition before_invoke_run : list (action Z unit nat unit) :=
  [call_start tt tt;
   range_next 0 0; call_connect 0 0 100; call_operation_start 0;
   thread_step 0; thread_step 0;
   call_event_function 42%Z; thread_step 1; thread_step 1].

(** A second operation started while the first is pending. *)
Definition double_start_run : list (action Z unit nat unit) :=
  [call_start tt tt;
   range_next 0 0; call_connect 0 0 100; range_next 0 1; call_connect 1 0 101;
   call_operation_start 0; thread_step 0; thread_step 0;
   call_operation_start 1].

(** The states these runs end in. *)
Definition final_state (acts : list (action Z unit nat unit))
    : system Z unit nat unit :=
  default create_event_sender_range (run create_event_sender_range acts).
Definition two_events_state : system Z unit nat unit :=
  Eval vm_compute in final_state two_events_run.
Definition before_invoke_state : system Z unit nat unit :=
  Eval vm_compute in final_state before_invoke_run.
Definition double_start_state : system Z unit nat unit :=
  Eval vm_compute in final_state double_start_run.
Definition event_called_state : system Z unit nat unit :=
  Eval vm_compute in final_state [call_event_function 1%Z].
Definition sender_made_state : system Z unit nat unit :=
  Eval vm_compute in final_state [call_start tt tt; range_next 0 0].

(** A sender taken from the range and connected; nothing started. *)
Definition connected_run : list (action Z unit nat unit) :=
  [call_start tt tt; range_next 0 0; call_connect 0 0 100].
Definition connected_state : system Z unit nat unit :=
  Eval vm_compute in final_state connected_run.



(** [start(token)] called twice, then the end of the first range. *)
Definition two_starts_run : list (action Z unit nat nat) :=
  [call_start tt 1; call_start tt 2; destroy_range 0].
Definition two_starts_state : system Z unit nat nat :=
  Eval vm_compute in
    default create_event_sender_range
      (run create_event_sender_range two_starts_run).

(** The run [before_invoke_run] with stop token [t], and its state. *)
Definition token_run (t : nat) : list (action Z nat nat unit) :=
  [call_start t tt;
   range_next 0 0; call_connect 0 0 100; call_operation_start 0;
   thread_step 0; thread_step 0;
   call_event_function 42%Z; thread_step 1; thread_step 1].
Definition token_state (t : nat) : system Z nat nat unit :=
  default create_event_sender_range (run create_event_sender_range (token_run t)).

(** ** A delivery in the window between the two writes of [start] *)

(** One operation is started and has executed line 80 only; an event
    arrives and its delivery takes the operation; the delivery then runs [n]
    iterations of its loop before the starting thread is scheduled again. *)
Definition window_prefix : list (action Z unit nat unit) :=
  [call_start tt tt; range_next 0 0; call_connect 0 0 0; call_operation_start 0;
   thread_step 0; call_event_function 65%Z; thread_step 1].
Definition window_run (n : nat) : list (action Z unit nat unit) :=
  window_prefix ++ repeat (thread_step 1) n.
Definition window_state : system Z unit nat unit :=
  System (Factory (storage_registration tt) None None) true
    [Some (SenderRange this (SenderFactory this tt))]
    [Sender this tt] [OperationState 0 this tt 0]
    [in_start 0 at_cas_complete; in_event_function 65%Z (at_spin 0)]
    [ev_register tt] false.

(** ** The keyboard hook of [main] *)

(** [main] instantiates the factory with [EventType = WPARAM], a register
    function that returns a [kbdhookstate] and an unregister function that
    does nothing.  The constructor of [kbdhookstate] starts [msgThread_]
    from its member initialisers, inside the register function and so
    inside [start(token)]; the thread installs the hook and then pumps
    messages, while [main] goes on. *)
Module KbdHook.

Definition HHOOK := Z.
Definition WPARAM := Z.

(** The [kbdhookstate] object; [hHook_] is written later by its thread and
    is kept in [program]. *)
Inductive kbdhookstate := kbdhookstate_of (fn_ : factory_ptr).

(** [kbdhookstate] has a [std::thread] member: its destructor is not
    trivial. *)
#[global] Instance kbdhookstate_destructible : TriviallyDestructible kbdhookstate :=
  false.

(** The line feed that the escape in ["...\n"] stands for in the source. *)
Definition LF : string := String (Ascii.ascii_of_nat 10) EmptyString.

(** Program points of the lambda that [msgThread_] runs; the failure path
    carries the text [FormatMessageW] produced. *)
Inductive msg_thread_pc :=
| at_self_                                  (* before line 156 *)
| at_SetWindowsHookExW                      (* before line 158 *)
| at_FormatMessageW                         (* line 163 found NULL; before line 165 *)
| at_printf_failed (message : string)       (* before line 175 *)
| at_printf_Error (message : string)        (* before line 176 *)
| at_std_terminate                          (* before line 177 *)
| at_printf_set                             (* before line 179 *)
| in_message_loop.                          (* lines 181-184 *)

Section Main.
Context {StopToken Receiver : Type}.

Record program := Program {
  bridge : system WPARAM StopToken Receiver kbdhookstate;
  hHook_ : option HHOOK;                    (* [None]: NULL *)
  msgThread_ : option msg_thread_pc;        (* [None]: no thread yet *)
  starting : option StopToken;              (* [main] is inside [start(token)],
                                               between lines 186 and 187 *)
  console : list string;
}.

Inductive main_action :=
| main_start (token : StopToken)
| start_returns
| on_bridge (a : action WPARAM StopToken Receiver kbdhookstate)
| msg_thread_step (result : option HHOOK) (message : string).

Definition main_init : program :=
  Program create_event_sender_range None None None [].

Definition set_bridge (b : system WPARAM StopToken Receiver kbdhookstate)
    (p : program) : program :=
  Program b (hHook_ p) (msgThread_ p) (starting p) (console p).

(** The call [start(token)] of line 214 as far as the member initialisers
    of the [kbdhookstate] that the register function constructs (line 123,
    lines 153-186): [hHook_] is NULL and the thread is started. *)
Definition main_registerFn (token : StopToken) (p : program) : program :=
  Program (bridge p) None (Some at_self_) (Some token) (console p).

(** The rest of [start(token)]: the body of the constructor, the return of
    the register function into [storage_] and the return of the range
    (lines 187, 123-130). *)
Definition start_return (token : StopToken) (p : program) : option program :=
  b ← step (call_start token (kbdhookstate_of this)) (bridge p);
  Some (Program b (hHook_ p) (msgThread_ p) None (console p)).

(** One step of the thread's lambda; [result] is what [SetWindowsHookExW]
    returns and [message] what [FormatMessageW] produces, where the step is
    that call.  [self->hHook_] is in the [kbdhookstate], which lives in the
    factory. *)
Definition msg_thread_lambda (result : option HHOOK) (message : string)
    (pc : msg_thread_pc) (p : program) : option program :=
  let goto pc' :=
    Program (bridge p) (hHook_ p) (Some pc') (starting p) (console p) in
  let printf line pc' :=
    Program (bridge p) (hHook_ p) (Some pc') (starting p) (console p ++ [line]) in
  match pc with
  | at_self_ => Some (goto at_SetWindowsHookExW)
  | at_SetWindowsHookExW =>
      if factory_alive (bridge p) then
        Some (Program (bridge p) result
                (Some match result with
                      | None => at_FormatMessageW
                      | Some _ => at_printf_set
                      end)
                (starting p) (console p))
      else None
  | at_FormatMessageW => Some (goto (at_printf_failed message))
  | at_printf_failed m =>
      Some (printf ("failed to set keyboard hook" +:+ LF) (at_printf_Error m))
  | at_printf_Error m =>
      Some (printf ("Error: " +:+ m +:+ LF) at_std_terminate)
  | at_std_terminate => Some (set_bridge (std_terminate (bridge p)) p)
  | at_printf_set =>
      Some (printf ("keyboard hook set" +:+ LF) in_message_loop)
  | in_message_loop => None
  end.

(** The destructor of the registration, which line 114 calls:
    [kbdhookstate] declares none, so its members are destroyed, and
    [msgThread_], which nothing has joined or detached, is joinable from the
    constructor on: [std::terminate()]. *)
Definition kbdhookstate_destructor (p : program) : program :=
  match msgThread_ p with
  | Some _ => set_bridge (std_terminate (bridge p)) p
  | None => p
  end.

(** The steps of the program.  [main] calls [start] once (line 214); the
    steps on the bridge are those of the consumer and of the calls of the
    event function. *)
Definition main_step (a : main_action) (p : program) : option program :=
  if terminated (bridge p) then None
  else match a with
  | main_start token =>
      match msgThread_ p, starting p with
      | None, None =>
          if factory_alive (bridge p) then Some (main_registerFn token p)
          else None
      | _, _ => None
      end
  | start_returns => token ← starting p; start_return token p
  | on_bridge (call_start _ _) => None
  | on_bridge (destroy_range rid) =>
      b ← step (destroy_range rid) (bridge p);
      Some (kbdhookstate_destructor (set_bridge b p))
  | on_bridge a => b ← step a (bridge p); Some (set_bridge b p)
  | msg_thread_step result message =>
      pc ← msgThread_ p; msg_thread_lambda result message pc p
  end.

Fixpoint main_run (p : program) (acts : list main_action) : option program :=
  match acts with
  | [] => Some p
  | a :: acts' => p' ← main_step a p; main_run p' acts'
  end.

End Main.

Arguments program : clear implicits.
Arguments main_action : clear implicits.

(** The steps of the thread when [SetWindowsHookExW] fails: the call, the
    call of [FormatMessageW], the two calls of [printf] and
    [std::terminate]. *)
Definition hook_failure {StopToken Receiver : Type} (message : string)
    : list (main_action StopToken Receiver) :=
  repeat (msg_thread_step None message) 5.

(** A run of [main] in which [SetWindowsHookExW] fails after the consumer
    has started its first operation. *)
Definition failing_hook_run : list (main_action unit nat) :=
  [main_start tt; start_returns; msg_thread_step None "";
   on_bridge (range_next 0 0); on_bridge (call_connect 0 0 0);
   on_bridge (call_operation_start 0); on_bridge (thread_step 0)].

Definition failed_hook_state : program unit nat :=
  Eval vm_compute in
    default main_init
      (main_run main_init (failing_hook_run ++ hook_failure "Access is denied.")).

(** A run in which it fails while [main] is still inside [start(token)]. *)
Definition early_failure_run : list (main_action unit nat) :=
  [main_start tt; msg_thread_step None ""].

Definition early_failure_state : program unit nat :=
  Eval vm_compute in default main_init (main_run main_init early_failure_run).

End KbdHook.

(** ** The hook procedure and the message loop *)

(** [KbdHookProc] is the procedure [msgThread_] hands to
    [SetWindowsHookExW]; the system calls it with a code, a message
    identifier and a pointer.  It calls [fn_], which is the event function of
    the factory, for a key that goes down, and passes every call on with
    [CallNextHookEx].  [WM_KEYDOWN] and [WM_SYSKEYDOWN] come from
    <winuser.h> and are parameters here.  Nothing is assumed about when the
    system calls the procedure, or on which thread: a call may come at any
    point, also while another call has not returned. *)
Module HookProc.
Import KbdHook.

Definition LPARAM := Z.

(** The arguments of one call of [KbdHookProc]. *)
Record hook_args := HookArgs { nCode : Z; wParam : WPARAM; lParam : LPARAM }.

(** One call of [KbdHookProc]: its arguments, the frame of its call of
    [self.fn_] (line 197) if it made one, and whether it has returned. *)
Record activation := Activation {
  act_args : hook_args;
  act_fn_ : option nat;
  act_returned : bool;
}.

(** One call of [CallNextHookEx]: the hook handle ([None]: NULL) and the
    arguments passed on. *)
Definition next_hook_call : Type := option HHOOK * hook_args.

Section Proc.
Context {StopToken Receiver : Type}.
Variables WM_KEYDOWN WM_SYSKEYDOWN : WPARAM.

#[local] Abbreviation program' := (program StopToken Receiver).

Record process := Process {
  prog : program';
  self_ : option kbdhookstate;              (* [None]: nullptr *)
  msgThread_returned : bool;                (* the lambda of line 155 has returned *)
  activations : list activation;
  CallNextHookEx_calls : list next_hook_call;
}.

Inductive hook_action :=
| of_main (a : main_action StopToken Receiver)
| GetMessageW_returns (result : Z)
| call_KbdHookProc (a : hook_args)
| return_KbdHookProc (i : nat).

Definition hook_init : process := Process main_init None false [] [].

Definition set_prog (q : program') (p : process) : process :=
  Process q (self_ p) (msgThread_returned p) (activations p)
    (CallNextHookEx_calls p).

(** The condition of lines 193-194. *)
Definition KbdHookProc_forwards (self : option kbdhookstate) (a : hook_args)
    : bool :=
  match self with
  | None => false
  | Some _ =>
      (0 <=? nCode a)%Z
      && ((wParam a =? WM_KEYDOWN)%Z || (wParam a =? WM_SYSKEYDOWN)%Z)
  end.

(** [KbdHookProc] from its call to line 197, where it is inside [fn_], or to
    its return at line 200. *)
Definition KbdHookProc (a : hook_args) (p : process) : option process :=
  if KbdHookProc_forwards (self_ p) a then
    b ← step (call_event_function (wParam a)) (bridge (prog p));
    Some (Process (set_bridge b (prog p)) (self_ p) (msgThread_returned p)
            (activations p
             ++ [Activation a (Some (length (frames (bridge (prog p))))) false])
            (CallNextHookEx_calls p))
  else
    Some (Process (prog p) (self_ p) (msgThread_returned p)
            (activations p ++ [Activation a None true])
            (CallNextHookEx_calls p ++ [(None, a)])).

(** Line 198, once [fn_] has returned; [self.hHook_] is read in the
    [kbdhookstate], which lives in the factory. *)
Definition KbdHookProc_return (i : nat) (p : process) : option process :=
  act ← activations p !! i;
  if act_returned act then None
  else
    tid ← act_fn_ act;
    fr ← frames (bridge (prog p)) !! tid;
    match fr with
    | in_event_function _ (ef_returned _) =>
        if factory_alive (bridge (prog p)) then
          Some (Process (prog p) (self_ p) (msgThread_returned p)
                  (<[i := Activation (act_args act) (act_fn_ act) true]>
                     (activations p))
                  (CallNextHookEx_calls p ++ [(hHook_ (prog p), act_args act)]))
        else None
    | _ => None
    end.

(** The loop of lines 182-184: [GetMessageW] returns [result]. *)
Definition message_loop (result : Z) (p : process) : option process :=
  match msgThread_ (prog p) with
  | Some in_message_loop =>
      if msgThread_returned p then None
      else if (result =? 0)%Z
           then Some (Process (prog p) (self_ p) true (activations p)
                        (CallNextHookEx_calls p))
           else Some p                      (* [DispatchMessageW] *)
  | _ => None
  end.

(** The stores to [self_]: line 187, in the body of the constructor, and
    line 156, the first statement of the thread; both store the address of
    the one [kbdhookstate]. *)
Definition writes_self_ (a : main_action StopToken Receiver) (q : program')
    : bool :=
  match a with
  | start_returns => true
  | msg_thread_step _ _ =>
      match msgThread_ q with Some at_self_ => true | _ => false end
  | _ => false
  end.

(** The steps of the process: those of [main_step], except that [main]
    hands the event function to nobody but the [kbdhookstate], so that only
    [KbdHookProc] calls it; the message loop; and the calls of the hook
    procedure. *)
Definition hook_step (a : hook_action) (p : process) : option process :=
  if terminated (bridge (prog p)) then None
  else match a with
  | of_main (on_bridge (call_event_function _)) => None
  | of_main a =>
      q ← main_step a (prog p);
      Some (Process q
              (if writes_self_ a (prog p) then Some (kbdhookstate_of this)
               else self_ p)
              (msgThread_returned p) (activations p) (CallNextHookEx_calls p))
  | GetMessageW_returns result => message_loop result p
  | call_KbdHookProc a => KbdHookProc a p
  | return_KbdHookProc i => KbdHookProc_return i p
  end.

Fixpoint hook_run (p : process) (acts : list hook_action) : option process :=
  match acts with
  | [] => Some p
  | a :: acts' => p' ← hook_step a p; hook_run p' acts'
  end.

(** One call of [KbdHookProc], activation [i], from the call to the return,
    with [k] steps of its call [tid] of the event function. *)
Definition whole_hook_call (a : hook_args) (tid i k : nat) : list hook_action :=
  call_KbdHookProc a
  :: repeat (of_main (on_bridge (thread_step tid))) k ++ [return_KbdHookProc i].

(** The call of [KbdHookProc] that made the call [tid] of the event
    function, with the event [e]. *)
Definition from_key_down (p : process) (tid : nat) (e : WPARAM) : Prop :=
  ∃ i act, activations p !! i = Some act
    ∧ act_fn_ act = Some tid
    ∧ wParam (act_args act) = e
    ∧ (0 ≤ nCode (act_args act))%Z
    ∧ (e = WM_KEYDOWN ∨ e = WM_SYSKEYDOWN).

(** What holds in every state of the process. *)
Record hook_inv (p : process) : Prop := HookInv {
  hi_delivery : delivery_inv (bridge (prog p));
  hi_frames : ∀ tid e pc,
    frames (bridge (prog p)) !! tid = Some (in_event_function e pc) →
    from_key_down p tid e;
  hi_thread : ranges (bridge (prog p)) ≠ [] → is_Some (msgThread_ (prog p));
  hi_starting : is_Some (starting (prog p)) → is_Some (msgThread_ (prog p));
  hi_passed_on :
    length (CallNextHookEx_calls p) = countb act_returned (activations p);
  hi_returned : ∀ i act tid,
    activations p !! i = Some act → act_fn_ act = Some tid →
    act_returned act = true →
    ∃ e o, frames (bridge (prog p)) !! tid
           = Some (in_event_function e (ef_returned o));
}.

End Proc.

Arguments process : clear implicits.
Arguments hook_action : clear implicits.

(** ** Concrete runs of the process *)

(** The hook is installed with handle 1, and the consumer has started its
    first operation; [WM_KEYDOWN] is 0x0100 and [WM_SYSKEYDOWN] 0x0104. *)
Definition key_run : list (hook_action unit nat) :=
  [of_main (main_start tt); of_main start_returns;
   of_main (msg_thread_step None ""); of_main (msg_thread_step (Some 1%Z) "");
   of_main (msg_thread_step None "");
   of_main (on_bridge (range_next 0 0));
   of_main (on_bridge (call_connect 0 0 100));
   of_main (on_bridge (call_operation_start 0));
   of_main (on_bridge (thread_step 0)); of_main (on_bridge (thread_step 0))].
Definition key_pending_state : process unit nat :=
  Eval vm_compute in default hook_init (hook_run 256%Z 260%Z hook_init key_run).

(** Then a key goes down. *)
Definition key_delivered_run : list (hook_action unit nat) :=
  key_run ++ whole_hook_call (HookArgs 0%Z 256%Z 30%Z) 1 0 3.
Definition key_delivered_state : process unit nat :=
  Eval vm_compute in
    default hook_init (hook_run 256%Z 260%Z hook_init key_delivered_run).

(** Or the range ends. *)
Definition range_ended_state : process unit nat :=
  Eval vm_compute in
    default hook_init
      (hook_run 256%Z 260%Z key_pending_state
         [of_main (on_bridge (destroy_range 0))]).

End HookProc.

(** * Facts *)

Section CountFacts.
Context {A : Type}.
Implicit Types (P : A → bool) (l : list A).

Lemma countb_app P l1 l2 : countb P (l1 ++ l2) = countb P l1 + countb P l2.
Proof. induction l1 as [|x l1 IH]; simpl; [done | rewrite IH; lia]. Qed.

Lemma countb_insert P l i x y :
  l !! i = Some x →
  countb P (<[i := y]> l) + b2n (P x) = countb P l + b2n (P y).
Proof.
  revert i. induction l as [|z l IH]; intros [|i] Hi; simplify_eq/=.
  - unfold b2n. lia.
  - specialize (IH _ Hi). lia.
Qed.

Lemma countb_lookup P l i x : l !! i = Some x → P x = true → 1 ≤ countb P l.
Proof.
  revert i. induction l as [|z l IH]; intros [|i] Hi HP; simplify_eq/=.
  - rewrite HP. lia.
  - specialize (IH _ Hi HP). lia.
Qed.

Lemma countb_pos P l : 1 ≤ countb P l → ∃ i x, l !! i = Some x ∧ P x = true.
Proof.
  induction l as [|z l IH]; simpl; [lia|].
  destruct (P z) eqn:Hz.
  - intros _. by exists 0, z.
  - intros H. destruct IH as (i & x & Hi & Hx); [lia|]. by exists (S i), x.
Qed.

End CountFacts.

Ltac count_insert :=
  repeat match goal with
  | Hfr : ?l !! ?i = Some ?x |- context [countb ?P (<[?i := ?y]> ?l)] =>
      let H := fresh "Hc" in
      pose proof (countb_insert P l i x y Hfr) as H;
      simpl in H;
      generalize dependent (countb P (<[i := y]> l)); intros
  end.

Ltac case_about :=
  repeat match goal with
  | |- context [about ?o ?p] => destruct (about o p)
  | H : context [about ?o ?p] |- _ => destruct (about o p)
  end.

Section BridgeFacts.
Context {EventType StopToken Receiver Registration : Type}
        `{!TriviallyDestructible Registration}.
#[local] Abbreviation system := (system EventType StopToken Receiver Registration).
#[local] Abbreviation action := (action EventType StopToken Receiver Registration).
Implicit Types (s : system) (a : action).

(** ** The cases of a step *)

Lemma step_inv a s s' :
  step a s = Some s' →
  terminated s = false ∧ factory_alive s = true ∧ step_view a s s'.
Proof.
  unfold step. intros H.
  destruct (terminated s) eqn:Hterm; [done|].
  destruct (factory_alive s) eqn:Halive; simpl in H; [|done].
  split; [done|]. split; [done|].
  destruct a as [token reg|rid|rid|rid i|sid inst receiver|p|e|tid|].
  - simplify_eq. constructor.
  - destruct (live_range s rid) as [r|] eqn:Hr; simplify_eq/=. by constructor.
  - destruct (live_range s rid) as [r|] eqn:Hr; simplify_eq/=.
    unfold sender_range_destructor in H.
    destruct (storage_ (factory s)) as [|reg|] eqn:Hsto; simplify_eq.
    exact (sv_destroy rid r reg s Hr Hsto).
  - destruct (live_range s rid) as [r|] eqn:Hr; simplify_eq/=. by constructor.
  - destruct (senders s !! sid) as [snd|] eqn:Hs; simplify_eq/=. by constructor.
  - destruct (heap s !! p) as [self|] eqn:Hp; simplify_eq/=. by econstructor.
  - simplify_eq. constructor.
  - destruct (frames s !! tid) as [[e pc|p pc]|] eqn:Hfr; simplify_eq/=.
    + destruct pc as [|p|p f|]; simpl in H.
      * destruct (pendingOperation_ (factory s)) as [p|] eqn:Hp; simplify_eq.
        -- by apply sv_take.
        -- by apply sv_drop.
      * destruct (complete_with_event_ (factory s)) as [f|] eqn:Hc; simplify_eq.
        -- by apply sv_spin_hit.
        -- by apply sv_spin_miss.
      * unfold complete_with_event in H.
        destruct (heap s !! p) as [self|] eqn:Hp; simplify_eq/=.
        case_decide; simplify_eq/=. by eapply sv_invoke.
      * done.
    + destruct pc; simpl in H; unfold compare_exchange_strong in H.
      * destruct (pendingOperation_ (factory s)) as [q|] eqn:Hp;
          case_decide; simplify_eq.
        -- by eapply sv_cas_pending_fail.
        -- by apply sv_cas_pending_ok.
      * destruct (heap s !! p) as [self|] eqn:Hp; simplify_eq/=.
        destruct (complete_with_event_ (factory s)) as [f|] eqn:Hc;
          case_decide; simplify_eq.
        -- by eapply sv_cas_complete_fail.
        -- by apply sv_cas_complete_ok.
      * done.
  - simplify_eq. constructor.
Qed.

(** ** The balance of the slot *)

Lemma slot_balance_init : slot_balance (create_event_sender_range : system).
Proof. split; [intros o|]; reflexivity. Qed.

Lemma slot_balance_step a s s' :
  step a s = Some s' → slot_balance s → slot_balance s'.
Proof.
  intros (_ & _ & Hv)%step_inv [Hp Ht].
  split; [intros o; specialize (Hp o)|].
  - unfold pending_balance, pending_about in *.
    destruct Hv; simpl.
    all: rewrite ?countb_app; simpl.
    all: try match goal with
    | H : pendingOperation_ _ = _ |- _ => try rewrite H in Hp; try rewrite H
    end.
    all: count_insert.
    all: case_about. all: simpl in *. all: try lia.
  - unfold trampoline_balance, trampoline_set in *.
    destruct Hv; simpl.
    all: rewrite ?countb_app; simpl.
    all: try match goal with
    | H : complete_with_event_ _ = _ |- _ => try rewrite H in Ht; try rewrite H
    end.
    all: count_insert.
    all: simpl in *. all: try lia.
Qed.

Lemma run_invariant (I : system → Prop) :
  (∀ a s s', step a s = Some s' → I s → I s') →
  ∀ acts s s', run s acts = Some s' → I s → I s'.
Proof.
  intros Hstep acts. induction acts as [|a acts IH]; intros s s' Hrun Hs;
    simplify_option_eq; eauto.
Qed.

Lemma run_app s acts1 acts2 :
  run s (acts1 ++ acts2) = s1 ← run s acts1; run s1 acts2.
Proof.
  revert s. induction acts1 as [|a acts1 IH]; intros s; simpl; [done|].
  destruct (step a s); simpl; auto.
Qed.

(** ** Deliveries *)

Lemma deliveries_by_app tid (tr1 tr2 : list (event EventType Receiver Registration)) :
  deliveries_by tid (tr1 ++ tr2) = deliveries_by tid tr1 ++ deliveries_by tid tr2.
Proof.
  induction tr1 as [|[] tr1 IH]; simpl; try done.
  case_bool_decide; simpl; by rewrite IH.
Qed.

Lemma delivery_inv_init : delivery_inv (create_event_sender_range : system).
Proof. intros tid. reflexivity. Qed.

Lemma delivery_inv_step a s s' :
  step a s = Some s' → delivery_inv s → delivery_inv s'.
Proof.
  intros (_ & _ & Hv)%step_inv Hinv tid'. specialize (Hinv tid').
  destruct Hv; simpl; rewrite ?deliveries_by_app; simpl; rewrite ?app_nil_r;
    try done.
  all: try (destruct (decide (tid' = tid)) as [->|Hne];
    [rewrite list_lookup_insert_eq by (by eapply lookup_lt_Some)
    |rewrite list_lookup_insert_ne by done]).
  all: repeat match goal with
    | H : frames _ !! ?t = Some _, H' : context [frames _ !! ?t] |- _ =>
        rewrite H in H'
    end.
  all: repeat case_bool_decide; simplify_eq; rewrite ?app_nil_r; try done.
  all: try (rewrite ?Hinv; simpl; by eauto).
  - destruct (frames s !! tid') as [[e [| | |[q|]]|]|]; try done.
    destruct Hinv as (self & Hq & Hd). exists self.
    by rewrite lookup_app_l by (by eapply lookup_lt_Some).
  - destruct (decide (tid' < length (frames s))) as [Hlt|Hge];
      [by rewrite lookup_app_l by done|].
    rewrite (lookup_ge_None_2 (frames s) tid') in Hinv by lia.
    rewrite lookup_app_r by lia.
    by destruct (tid' - length (frames s)) as [|k].
  - destruct (decide (tid' < length (frames s))) as [Hlt|Hge];
      [by rewrite lookup_app_l by done|].
    rewrite (lookup_ge_None_2 (frames s) tid') in Hinv by lia.
    rewrite lookup_app_r by lia.
    by destruct (tid' - length (frames s)) as [|k].
Qed.

(** C1: along any run, one call of the event function hands its event to
    at most one operation: the [set_value] calls made by call [tid] are none
    or exactly one, and that one goes, with the call's own event, to the
    receiver of the operation the call took out of [pendingOperation_]. *)
Theorem no_duplicate_delivery (acts : list action) s tid :
  run create_event_sender_range acts = Some s →
  length (deliveries_by tid (trace s)) ≤ 1
  ∧ ∀ p r e, (p, r, e) ∈ deliveries_by tid (trace s) →
      frames s !! tid = Some (in_event_function e (ef_returned (Some p)))
      ∧ ∃ self, heap s !! p = Some self ∧ op_receiver_ self = r.
Proof.
  intros Hrun.
  assert (delivery_inv s) as Hinv.
  { eapply (run_invariant delivery_inv); eauto using delivery_inv_step.
    apply delivery_inv_init. }
  specialize (Hinv tid).
  destruct (frames s !! tid) as [[e [| | |[q|]]|]|];
    try (rewrite Hinv; split; [simpl; lia | by intros ??? ?%elem_of_nil]).
  destruct Hinv as (self & Hq & ->). split; [simpl; lia|].
  intros p r e' [= -> -> ->]%list_elem_of_singleton. eauto.
Qed.

(** ** Correct usage *)

Lemma countb_starts (l : list (frame EventType)) :
  countb (fr_is_start None) l
  = countb fr_cas_pending l + countb fr_cas_complete l + countb fr_st_returned l.
Proof. induction l as [|[e pc|p []] l IH]; simpl; lia. Qed.

Lemma countb_published (l : list (frame EventType)) :
  countb (fr_published None) l = countb fr_cas_complete l + countb fr_st_returned l.
Proof. induction l as [|[e pc|p []] l IH]; simpl; lia. Qed.

Lemma countb_holds (l : list (frame EventType)) :
  countb (fr_holds None) l = countb fr_spin l + countb fr_invoke l.
Proof. induction l as [|[e []|p pc] l IH]; simpl; lia. Qed.

(** The operations between the two writes of [start] and the trampolines
    written are as many as the operations waiting in, or taken from,
    [pendingOperation_] without a trampoline yet. *)
Lemma balance_window s :
  slot_balance s →
  countb fr_cas_complete (frames s) + b2n (trampoline_set s)
  = b2n (pending_about None s) + countb fr_spin (frames s).
Proof.
  intros [Hp Ht]. specialize (Hp None).
  unfold pending_balance, trampoline_balance in *.
  rewrite countb_published, countb_holds in Hp. lia.
Qed.

Lemma idle_in_flight s : slot_balance s → idle s = true → in_flight s = 0.
Proof.
  intros [_ Ht] Hidle%bool_decide_eq_true.
  unfold trampoline_balance, in_flight in *.
  rewrite countb_starts in Hidle. lia.
Qed.

Lemma in_flight_step a s s' :
  usage_ok a s = true → step a s = Some s' →
  slot_balance s → in_flight s ≤ 1 →
  in_flight s' ≤ 1 ∧ terminated s' = terminated s.
Proof.
  intros Hok (_ & _ & Hv)%step_inv Hbal Hfl.
  pose proof (balance_window s Hbal) as Hw.
  unfold in_flight, trampoline_set, pending_about in *.
  destruct Hv; simpl in *; rewrite ?countb_app; simpl.
  all: try match goal with
    | H : pendingOperation_ _ = _ |- _ => try rewrite H in Hw; try rewrite H
    end.
  all: try match goal with
    | H : complete_with_event_ _ = _ |- _ =>
        try rewrite H in Hw; try rewrite H in Hfl; try rewrite H
    end.
  all: simpl in *.
  all: try (split; [|done]).
  all: count_insert.
  all: try lia.
  - apply andb_true_iff in Hok as [Hidle _].
    pose proof (idle_in_flight s Hbal Hidle) as H0.
    unfold in_flight, trampoline_set in H0. lia.
  - pose proof (countb_lookup fr_cas_pending _ _ _ H eq_refl). exfalso. lia.
  - pose proof (countb_lookup fr_cas_complete _ _ _ H eq_refl). exfalso. lia.
Qed.

Lemma starts_once_step a s s' p :
  usage_ok a s = true → step a s = Some s' →
  starts_of p (frames s) ≤ 1 → starts_of p (frames s') ≤ 1.
Proof.
  intros Hok (_ & _ & Hv)%step_inv Hp. unfold starts_of in *.
  destruct Hv; simpl in *; rewrite ?countb_app; simpl; count_insert;
    try lia.
  apply andb_true_iff in Hok as [_ Hnew%bool_decide_eq_true].
  unfold starts_of in Hnew. case_bool_decide; simplify_eq; simpl; lia.
Qed.

Lemma heap_grows a s s' p self :
  step a s = Some s' → heap s !! p = Some self → heap s' !! p = Some self.
Proof.
  intros (_ & _ & Hv)%step_inv Hp. destruct Hv; simpl; try done.
  by apply lookup_app_l_Some.
Qed.

Lemma started_in_heap_step a s s' :
  step a s = Some s' →
  (∀ j q pc, frames s !! j = Some (in_start q pc) → is_Some (heap s !! q)) →
  (∀ j q pc, frames s' !! j = Some (in_start q pc) → is_Some (heap s' !! q)).
Proof.
  intros Hstep Hinv j q pc Hj.
  cut (is_Some (heap s !! q)).
  { intros [self Hq]. exists self. by eapply heap_grows. }
  destruct (step_inv _ _ _ Hstep) as (_ & _ & Hv).
  destruct Hv; simpl in *; eauto.
  all: try (destruct (decide (j = tid)) as [->|Hne];
    [rewrite list_lookup_insert_eq in Hj by (by eapply lookup_lt_Some)
    |rewrite list_lookup_insert_ne in Hj by done]; simplify_eq; by eauto).
  all: apply lookup_app_Some in Hj as [Hj|[_ Hj]]; [by eauto|].
  all: destruct (j - length (frames s)); simplify_eq/=; eauto.
Qed.

Ltac frame_lookup Hj :=
  match type of Hj with
  | <[?tid := _]> _ !! ?j = Some _ =>
      destruct (decide (j = tid)) as [->|?];
      [rewrite list_lookup_insert_eq in Hj by (by eapply lookup_lt_Some)
      |rewrite list_lookup_insert_ne in Hj by done]
  | (?l ++ [_]) !! ?j = Some _ =>
      apply lookup_app_Some in Hj as [Hj|[_ Hj]];
      [|destruct (j - length l); simpl in Hj]
  end; simplify_eq.

Lemma in_slot_step a s s' p :
  step a s = Some s' → in_slot s' p →
  in_slot s p
  ∨ (pendingOperation_ (factory s) = None
     ∧ ∃ tid, a = thread_step tid
              ∧ frames s !! tid = Some (in_start p at_cas_pending)).
Proof.
  intros (_ & _ & Hv)%step_inv [Hp|(i & e' & Hi)]; unfold in_slot.
  - destruct Hv; simpl in *; simplify_eq; eauto 8.
  - destruct Hv; simpl in *; try frame_lookup Hi; eauto 8.
Qed.

Lemma cas_complete_frame_step a s s' j q :
  step a s = Some s' →
  frames s' !! j = Some (in_start q at_cas_complete) →
  frames s !! j = Some (in_start q at_cas_complete)
  ∨ (a = thread_step j ∧ frames s !! j = Some (in_start q at_cas_pending)
     ∧ pendingOperation_ (factory s) = None
     ∧ pendingOperation_ (factory s') = Some q).
Proof.
  intros (_ & _ & Hv)%step_inv Hj.
  destruct Hv; simpl in *; try frame_lookup Hj; eauto 8.
Qed.

Lemma invoke_frame_step a s s' i e p f :
  step a s = Some s' →
  frames s' !! i = Some (in_event_function e (at_invoke p f)) →
  frames s !! i = Some (in_event_function e (at_invoke p f))
  ∨ (frames s !! i = Some (in_event_function e (at_spin p))
     ∧ complete_with_event_ (factory s) = Some f).
Proof.
  intros (_ & _ & Hv)%step_inv Hj.
  destruct Hv; simpl in *; try frame_lookup Hj; eauto 8.
Qed.

Lemma trampoline_step a s s' f :
  step a s = Some s' →
  complete_with_event_ (factory s') = Some f →
  complete_with_event_ (factory s) = Some f
  ∨ ∃ tid q, a = thread_step tid
             ∧ frames s !! tid = Some (in_start q at_cas_complete)
             ∧ has_inst s q f.
Proof.
  intros (_ & _ & Hv)%step_inv Hf. unfold has_inst.
  destruct Hv; simpl in *; simplify_eq; eauto 10.
Qed.

Lemma has_inst_grows a s s' p f :
  step a s = Some s' → has_inst s p f → has_inst s' p f.
Proof. intros Hstep (self & Hp & Hf). exists self. eauto using heap_grows. Qed.
Lemma usage_inv_init : usage_inv (create_event_sender_range : system).
Proof.
  split.
  - done.
  - apply slot_balance_init.
  - unfold in_flight. simpl. lia.
  - intros p. unfold starts_of. simpl. lia.
  - intros j q pc Hj. done.
  - intros j q Hj. done.
  - intros f Hf. done.
  - intros i e p f Hi. done.
Qed.

Lemma usage_inv_step a s s' :
  usage_ok a s = true → step a s = Some s' → usage_inv s → usage_inv s'.
Proof.
  intros Hok Hstep [Hrun Hbal Hfl Honce Hheap Hown Htr Hinv].
  destruct (in_flight_step a s s' Hok Hstep Hbal Hfl) as [Hfl' Hrun'].
  pose proof (balance_window s Hbal) as Hw.
  split.
  - congruence.
  - by eapply slot_balance_step.
  - done.
  - intros p. by eapply starts_once_step.
  - by eapply started_in_heap_step.
  - intros j q Hj p Hp.
    destruct (cas_complete_frame_step _ _ _ _ _ Hstep Hj)
      as [Hj0|(-> & Hj0 & Hp0 & Hp1)];
      destruct (in_slot_step _ _ _ _ Hstep Hp)
      as [Hs|(Hp2 & tid & ? & Htid)]; simplify_eq.
    + by eapply Hown.
    + pose proof (countb_lookup fr_cas_complete _ _ _ Hj0 eq_refl).
      pose proof (countb_lookup fr_cas_pending _ _ _ Htid eq_refl).
      unfold in_flight in Hfl. lia.
    + exfalso.
      pose proof (countb_lookup fr_cas_pending _ _ _ Hj0 eq_refl).
      unfold in_flight, pending_about in *. rewrite Hp0 in Hw.
      destruct Hs as [Hs|(i & e & Hi)]; [congruence|].
      pose proof (countb_lookup fr_spin _ _ _ Hi eq_refl). simpl in Hw. lia.
    + done.
  - intros f Hf p Hp. 
    destruct (trampoline_step _ _ _ _ Hstep Hf) as [Hf0|(tid & q & -> & Hq & Hqf)];
      destruct (in_slot_step _ _ _ _ Hstep Hp)
      as [Hs|(Hp2 & tid' & ? & Htid)]; simplify_eq.
    + eapply has_inst_grows; eauto.
    + exfalso.
      pose proof (countb_lookup fr_cas_pending _ _ _ Htid eq_refl).
      unfold in_flight, trampoline_set in Hfl. rewrite Hf0 in Hfl.
      simpl in Hfl. lia.
    + rewrite (Hown _ _ Hq _ Hs). eapply has_inst_grows; eauto.
  - intros i e p f Hi.
    eapply has_inst_grows; [done|].
    destruct (invoke_frame_step _ _ _ _ _ _ _ Hstep Hi) as [Hi0|[Hi0 Hf0]].
    + by eapply Hinv.
    + eapply Htr; [done|]. right. eauto.
Qed.

Lemma run_ok_run s acts s' : run_ok s acts = Some s' → run s acts = Some s'.
Proof.
  revert s. induction acts as [|a acts IH]; intros s H; simpl in *; [done|].
  destruct (usage_ok a s); [|done].
  destruct (step a s) as [s1|]; simpl in *; eauto.
Qed.

Lemma run_ok_app s acts1 acts2 :
  run_ok s (acts1 ++ acts2) = s1 ← run_ok s acts1; run_ok s1 acts2.
Proof.
  revert s. induction acts1 as [|a acts1 IH]; intros s; simpl; [done|].
  destruct (usage_ok a s); [|done]. destruct (step a s); simpl; auto.
Qed.

Lemma run_ok_invariant s acts s' :
  run_ok s acts = Some s' → usage_inv s → usage_inv s'.
Proof.
  revert s. induction acts as [|a acts IH]; intros s H Hs; simplify_eq/=; [done|].
  destruct (usage_ok a s) eqn:Hok; [|done].
  destruct (step a s) as [s1|] eqn:Hstep; simplify_eq/=.
  eauto using usage_inv_step.
Qed.
(** ** Steps forward *)

Lemma step_view_step a s s' :
  terminated s = false → factory_alive s = true →
  step_view a s s' → step a s = Some s'.
Proof.
  intros Hrun Halive Hv. unfold step. rewrite Hrun, Halive. simpl.
  destruct Hv; simpl;
    repeat match goal with H : _ = _ |- _ => rewrite H; clear H; simpl end;
    unfold sender_range_destructor, complete_with_event, compare_exchange_strong;
    simpl;
    repeat match goal with H : _ = _ |- _ => rewrite H; clear H; simpl end;
    try done.
  by rewrite decide_True.
Qed.

Lemma set_factory_id s : set_factory (factory s) s = s.
Proof. by destruct s. Qed.

Lemma set_pendingOperation_id (f : event_sender_range_factory Registration) :
  set_pendingOperation (pendingOperation_ f) f = f.
Proof. by destruct f. Qed.

Lemma set_complete_with_event_id (f : event_sender_range_factory Registration) :
  set_complete_with_event (complete_with_event_ f) f = f.
Proof. by destruct f. Qed.

Lemma set_frame_id s tid fr : frames s !! tid = Some fr → set_frame tid fr s = s.
Proof.
  intros H. unfold set_frame. rewrite list_insert_id by done. by destruct s.
Qed.

(** A call that has returned stays as it is, and makes no further
    [set_value]. *)
Lemma returned_call_step a s s' tid e o :
  step a s = Some s' →
  frames s !! tid = Some (in_event_function e (ef_returned o)) →
  frames s' !! tid = Some (in_event_function e (ef_returned o))
  ∧ deliveries_by tid (trace s') = deliveries_by tid (trace s).
Proof.
  intros (_ & _ & Hv)%step_inv Htid.
  destruct Hv; simpl; rewrite ?deliveries_by_app; simpl; rewrite ?app_nil_r;
    try done.
  all: try (split; [|done]).
  all: try (by apply lookup_app_l_Some).
  all: try (destruct (decide (tid = tid0)) as [->|Hne];
    [simplify_eq | rewrite list_lookup_insert_ne by done]).
  all: repeat case_bool_decide; simplify_eq; rewrite ?app_nil_r; try done.
Qed.

Lemma returned_call_run acts s s' tid e o :
  run s acts = Some s' →
  frames s !! tid = Some (in_event_function e (ef_returned o)) →
  frames s' !! tid = Some (in_event_function e (ef_returned o))
  ∧ deliveries_by tid (trace s') = deliveries_by tid (trace s).
Proof.
  revert s. induction acts as [|a acts IH]; intros s Hrun Htid; simplify_eq/=;
    [done|].
  destruct (step a s) as [s1|] eqn:Hstep; simplify_eq/=.
  destruct (returned_call_step _ _ _ _ _ _ Hstep Htid) as [H1 H2].
  destruct (IH _ Hrun H1) as [H3 H4]. split; congruence.
Qed.

Lemma run_delivery_inv (acts : list action) s :
  run create_event_sender_range acts = Some s → delivery_inv s.
Proof.
  intros Hrun. eapply (run_invariant delivery_inv); eauto using delivery_inv_step.
  apply delivery_inv_init.
Qed.

(** C2: a call of the event function that finds [pendingOperation_] empty
    returns with its next step; that step changes nothing but the frame of
    the call itself (no field of the factory, no trampoline taken, nothing
    on the trace), and whatever happens afterwards, the call never makes a
    [set_value]: no operation started later receives its event. *)
Theorem drop_when_idle (acts0 : list action) s tid e :
  run create_event_sender_range acts0 = Some s →
  terminated s = false → factory_alive s = true →
  frames s !! tid = Some (in_event_function e at_exchange_pending) →
  pendingOperation_ (factory s) = None →
  ∃ s', step (thread_step tid) s = Some s'
    ∧ s' = set_frame tid (in_event_function e (ef_returned None)) s
    ∧ factory s' = factory s ∧ trace s' = trace s ∧ heap s' = heap s
    ∧ ∀ acts s'', run s' acts = Some s'' →
        deliveries_by tid (trace s'') = []
        ∧ frames s'' !! tid = Some (in_event_function e (ef_returned None)).
Proof.
  intros Hreach Hrun Halive Htid Hp.
  pose proof (run_delivery_inv _ _ Hreach tid) as Hd. rewrite Htid in Hd.
  assert (set_factory (set_pendingOperation None (factory s)) s = s) as Heq.
  { rewrite <- Hp. by rewrite set_pendingOperation_id, set_factory_id. }
  eexists. split; [by apply step_view_step, sv_drop|].
  rewrite Heq.
  split; [done|]. split; [done|]. split; [done|]. split; [done|].
  intros acts s'' Hrun'.
  destruct (returned_call_run acts _ s'' tid e None Hrun') as [H1 H2].
  { simpl. apply list_lookup_insert_eq. by eapply lookup_lt_Some. }
  split; [|done]. by rewrite H2.
Qed.
Lemma terminated_no_step a s : terminated s = true → step a s = None.
Proof. intros H. unfold step. by rewrite H. Qed.

(** C4: [start] on an operation [B] that finds another operation [A] in
    [pendingOperation_] does not replace it: the compare-exchange fails, [A]
    stays where it is, and the step is [std::terminate()], visible on the
    trace, after which the process makes no step at all. *)
Theorem second_start_is_fatal s tid (A B : ptr) :
  terminated s = false → factory_alive s = true →
  frames s !! tid = Some (in_start B at_cas_pending) →
  pendingOperation_ (factory s) = Some A →
  compare_exchange_strong (pendingOperation_ (factory s)) None (Some B)
    = (false, Some A)
  ∧ ∃ s', step (thread_step tid) s = Some s'
    ∧ s' = std_terminate s
    ∧ terminated s' = true
    ∧ pendingOperation_ (factory s') = Some A
    ∧ trace s' = trace s ++ [ev_terminate]
    ∧ ∀ a, step a s' = None.
Proof.
  intros Hrun Halive Htid Hp. split.
  { rewrite Hp. done. }
  exists (std_terminate s). split; [by eapply step_view_step, sv_cas_pending_fail|].
  split; [done|]. split; [done|]. split; [done|]. split; [done|].
  intros a. by apply terminated_no_step.
Qed.

Lemma countb_published_le (o : option ptr) (l : list (frame EventType)) :
  countb (fr_published o) l ≤ countb (fr_is_start o) l.
Proof.
  induction l as [|[e pc|p []] l IH]; simpl; try lia; destruct (about o p); simpl; lia.
Qed.

Lemma run_slot_balance (acts : list action) s :
  run create_event_sender_range acts = Some s → slot_balance s.
Proof.
  intros Hrun. eapply (run_invariant slot_balance); eauto using slot_balance_step.
  apply slot_balance_init.
Qed.

Lemma run_ok_usage_inv (acts : list action) s :
  run_ok create_event_sender_range acts = Some s → usage_inv s.
Proof. intros Hrun. eapply run_ok_invariant; eauto using usage_inv_init. Qed.

(** Correct usage never reaches [std::terminate]. *)
Corollary correct_usage_never_terminates (acts : list action) s :
  run_ok create_event_sender_range acts = Some s → terminated s = false.
Proof. intros Hok. apply (ui_running s), (run_ok_usage_inv acts s Hok). Qed.

(** However the component is used, an operation is completed at most as
    often as [start] was called on it. *)
Lemma completions_le_starts (acts : list action) s p :
  run create_event_sender_range acts = Some s →
  completions_of p (trace s) ≤ starts_of p (frames s).
Proof.
  intros [Hp _]%run_slot_balance. specialize (Hp (Some p)).
  unfold pending_balance, completions_of, starts_of in *.
  pose proof (countb_published_le (Some p) (frames s)). lia.
Qed.

Lemma in_flight_idle s : slot_balance s → in_flight s = 0 → idle s = true.
Proof.
  intros [_ Ht] H0. apply bool_decide_eq_true.
  unfold trampoline_balance, in_flight in *. rewrite countb_starts. lia.
Qed.

Lemma pending_about_None s :
  pending_about None s = false → pendingOperation_ (factory s) = None.
Proof. unfold pending_about. by destruct (pendingOperation_ (factory s)). Qed.

Lemma trampoline_set_false s :
  trampoline_set s = false → complete_with_event_ (factory s) = None.
Proof.
  unfold trampoline_set. destruct (complete_with_event_ (factory s)); [|done].
  intros H%bool_decide_eq_false. destruct H. eauto.
Qed.

(** Under correct usage, a delivery about to call the trampoline has left
    both fields of the slot empty, and it is the only operation in flight. *)
Lemma invoke_slot_empty s tid e p f :
  usage_inv s →
  frames s !! tid = Some (in_event_function e (at_invoke p f)) →
  pendingOperation_ (factory s) = None
  ∧ complete_with_event_ (factory s) = None
  ∧ in_flight s = 1.
Proof.
  intros Hinv Htid.
  pose proof (balance_window s (ui_balance _ Hinv)) as Hw.
  pose proof (ui_single _ Hinv) as Hfl.
  pose proof (countb_lookup fr_invoke _ _ _ Htid eq_refl) as Hi.
  unfold in_flight in *.
  split; [|split]; [apply pending_about_None|apply trampoline_set_false|];
    destruct (pending_about None s), (trampoline_set s); simpl in *; lia.
Qed.
Lemma run_ok_cons s a (acts : list action) :
  run_ok s (a :: acts)
  = if usage_ok a s then s' ← step a s; run_ok s' acts else None.
Proof. done. Qed.

(** A delivery into an empty slot, from the call of the event function to
    its return. *)
Lemma delivery_dropped s e :
  terminated s = false → factory_alive s = true →
  pendingOperation_ (factory s) = None →
  ∃ s2, run_ok s [call_event_function e; thread_step (length (frames s))] = Some s2
    ∧ trace s2 = trace s ∧ factory s2 = factory s
    ∧ frames s2 !! length (frames s) = Some (in_event_function e (ef_returned None)).
Proof.
  intros Hrun Halive Hp.
  set (s1 := set_frames (frames s ++ [in_event_function e at_exchange_pending]) s).
  assert (step (call_event_function e) s = Some s1) as H1
    by (apply step_view_step; [done..|constructor]).
  assert (frames s1 !! length (frames s)
          = Some (in_event_function e at_exchange_pending)) as Hfr
    by (by apply list_lookup_middle).
  eexists. rewrite !run_ok_cons. simpl. rewrite H1. simpl.
  erewrite step_view_step; [|done|done|by apply sv_drop]. simpl.
  split; [done|]. split; [done|]. split.
  - rewrite <- Hp. by rewrite set_pendingOperation_id.
  - apply list_lookup_insert_eq. by eapply lookup_lt_Some.
Qed.

(** [start] on a fresh operation when the slot is idle: both
    compare-exchanges succeed. *)
Lemma start_publishes s q selfq :
  terminated s = false → factory_alive s = true →
  slot_balance s → in_flight s = 0 →
  pendingOperation_ (factory s) = None →
  heap s !! q = Some selfq → starts_of q (frames s) = 0 →
  ∃ s3, run_ok s [call_operation_start q; thread_step (length (frames s));
                  thread_step (length (frames s))] = Some s3
    ∧ terminated s3 = false
    ∧ pendingOperation_ (factory s3) = Some q
    ∧ complete_with_event_ (factory s3) = Some (op_inst selfq)
    ∧ frames s3 !! length (frames s) = Some (in_start q st_returned).
Proof.
  intros Hrun Halive Hbal Hfl Hp Hq Hnew.
  assert (complete_with_event_ (factory s) = None) as Hc.
  { apply trampoline_set_false. unfold in_flight in Hfl.
    destruct (trampoline_set s); simpl in *; [lia|done]. }
  set (n := length (frames s)).
  set (s1 := set_frames (frames s ++ [in_start q at_cas_pending]) s).
  assert (step (call_operation_start q) s = Some s1) as H1
    by (eapply step_view_step; [done..|by econstructor]).
  assert (frames s1 !! n = Some (in_start q at_cas_pending)) as Hfr1
    by (by apply list_lookup_middle).
  set (s2 := set_frame n (in_start q at_cas_complete)
               (set_factory (set_pendingOperation (Some q) (factory s1)) s1)).
  assert (step (thread_step n) s1 = Some s2) as H2
    by (apply step_view_step; [done..|by apply sv_cas_pending_ok]).
  assert (frames s2 !! n = Some (in_start q at_cas_complete)) as Hfr2.
  { apply list_lookup_insert_eq. by eapply lookup_lt_Some. }
  eexists. rewrite !run_ok_cons. simpl.
  rewrite (in_flight_idle s Hbal Hfl), Hnew. simpl.
  rewrite H1. simpl. rewrite H2. simpl.
  erewrite step_view_step; [|done|done|by eapply sv_cas_complete_ok]. simpl.
  split; [done|]. split; [done|]. split; [done|]. split; [done|].
  apply list_lookup_insert_eq. by eapply lookup_lt_Some.
Qed.
(** C3: however the component is used, an operation is completed at most
    as often as [start] was called on it; under correct usage that is at most
    once.  The step that completes operation [p] is its first completion, it
    leaves both fields of the slot empty, so a further delivery finds nothing
    to complete and is dropped without touching the slot, and the [start] of
    the next operation finds the slot free and publishes into it. *)
Theorem exactly_once_completion :
  (∀ (acts : list action) s p,
     run create_event_sender_range acts = Some s →
     completions_of p (trace s) ≤ starts_of p (frames s))
  ∧ (∀ (acts : list action) s,
       run_ok create_event_sender_range acts = Some s →
       (∀ p, completions_of p (trace s) ≤ 1)
       ∧ ∀ tid e p f,
           factory_alive s = true →
           frames s !! tid = Some (in_event_function e (at_invoke p f)) →
           ∃ self s',
             heap s !! p = Some self
             ∧ run_ok s [thread_step tid] = Some s'
             ∧ trace s' = trace s ++ [ev_set_value tid p (op_receiver_ self) e]
             ∧ completions_of p (trace s) = 0
             ∧ completions_of p (trace s') = 1
             ∧ pendingOperation_ (factory s') = None
             ∧ complete_with_event_ (factory s') = None
             ∧ (∀ e2, ∃ s2,
                  run_ok s' [call_event_function e2;
                             thread_step (length (frames s'))] = Some s2
                  ∧ trace s2 = trace s' ∧ factory s2 = factory s'
                  ∧ frames s2 !! length (frames s')
                    = Some (in_event_function e2 (ef_returned None)))
             ∧ (∀ q selfq,
                  heap s' !! q = Some selfq → starts_of q (frames s') = 0 →
                  ∃ s3,
                    run_ok s' [call_operation_start q;
                               thread_step (length (frames s'));
                               thread_step (length (frames s'))] = Some s3
                    ∧ terminated s3 = false
                    ∧ pendingOperation_ (factory s3) = Some q
                    ∧ complete_with_event_ (factory s3) = Some (op_inst selfq)
                    ∧ frames s3 !! length (frames s')
                      = Some (in_start q st_returned))).
Proof.
  split; [intros acts s p Hrun; by eapply completions_le_starts|].
  intros acts s Hok. pose proof (run_ok_usage_inv _ _ Hok) as Hinv.
  pose proof (run_ok_run _ _ _ Hok) as Hrun.
  assert (∀ p, completions_of p (trace s) ≤ 1) as Honce.
  { intros p. pose proof (completions_le_starts _ _ p Hrun).
    pose proof (ui_once _ Hinv p). lia. }
  split; [done|].
  intros tid e p f Halive Htid.
  destruct (ui_invoke _ Hinv _ _ _ _ Htid) as (self & Hp & Hf).
  destruct (invoke_slot_empty _ _ _ _ _ Hinv Htid) as (Hpend & Hcwe & Hfl).
  set (s' := set_frame tid (in_event_function e (ef_returned (Some p)))
               (emit (ev_set_value tid p (op_receiver_ self) e) s)).
  assert (step (thread_step tid) s = Some s') as Hstep.
  { apply step_view_step; [apply Hinv|done|by eapply sv_invoke]. }
  assert (usage_inv s') as Hinv' by (by eapply (usage_inv_step (thread_step tid))).
  assert (completions_of p (trace s) = 0) as Hzero.
  { destruct (ui_balance _ Hinv) as [Hb _]. specialize (Hb (Some p)).
    unfold pending_balance, completions_of in *.
    pose proof (countb_published_le (Some p) (frames s)).
    pose proof (ui_once _ Hinv p) as H1. unfold starts_of in H1.
    assert (1 ≤ countb (fr_holds (Some p)) (frames s)).
    { eapply countb_lookup; [done|]. simpl. by apply bool_decide_eq_true. }
    lia. }
  assert (in_flight s' = 0) as Hfl'.
  { unfold in_flight, trampoline_set in *. simpl. count_insert. lia. }
  exists self, s'. split; [done|]. split.
  { rewrite run_ok_cons. simpl. by rewrite Hstep. }
  split; [done|]. split; [done|]. split.
  { simpl. unfold completions_of in *. rewrite countb_app. simpl.
    rewrite bool_decide_eq_true_2 by done. simpl. lia. }
  split; [done|]. split; [done|]. split.
  - intros e2. apply delivery_dropped; [apply Hinv'|done|done].
  - intros q selfq Hq Hnew.
    apply start_publishes; try done; apply Hinv'.
Qed.
(** Under correct usage, a delivery in its loop that finds a trampoline
    finds the one of the operation it holds; it takes it, leaving the field
    empty, and calls it on that operation with its event. *)
Lemma spin_takes_trampoline s tid e p f :
  usage_inv s → factory_alive s = true →
  frames s !! tid = Some (in_event_function e (at_spin p)) →
  complete_with_event_ (factory s) = Some f →
  ∃ self s1 s2,
    heap s !! p = Some self ∧ f = op_inst self
    ∧ step (thread_step tid) s = Some s1
    ∧ complete_with_event_ (factory s1) = None
    ∧ frames s1 !! tid = Some (in_event_function e (at_invoke p f))
    ∧ step (thread_step tid) s1 = Some s2
    ∧ trace s2 = trace s ++ [ev_set_value tid p (op_receiver_ self) e].
Proof.
  intros Hinv Halive Htid Hc. pose proof (ui_running _ Hinv) as Hrun.
  destruct (ui_trampoline _ Hinv f Hc p) as (self & Hp & Hf); [right; eauto|].
  set (s1 := set_frame tid (in_event_function e (at_invoke p f))
               (set_factory (set_complete_with_event None (factory s)) s)).
  assert (frames s1 !! tid = Some (in_event_function e (at_invoke p f))) as Hfr.
  { apply list_lookup_insert_eq. by eapply lookup_lt_Some. }
  exists self, s1. eexists. split; [done|]. split; [done|].
  split; [by apply step_view_step, sv_spin_hit|].
  split; [done|]. split; [done|].
  split; [by eapply step_view_step, sv_invoke|]. done.
Qed.

(** C5, as the code has it: under correct usage, a delivery that has taken
    operation [p] and is in the loop of lines 46-48 either finds the
    trampoline, which then is the one of [p]'s own instantiation, takes it
    (leaving the field empty) and calls it on [p] with its event; or finds the
    field empty, and then its iteration changes nothing, the [start] of [p]
    is between its two compare-exchanges, and the next step of that [start]
    succeeds and writes the trampoline of [p], keeping the usage correct,
    after which the next iteration of the delivery takes and calls it. *)
Theorem spin_waits_for_publisher (acts : list action) s tid e p :
  run_ok create_event_sender_range acts = Some s →
  factory_alive s = true →
  frames s !! tid = Some (in_event_function e (at_spin p)) →
  ∃ self, heap s !! p = Some self ∧
  match complete_with_event_ (factory s) with
  | Some f =>
      f = op_inst self
      ∧ ∃ s1 s2,
          step (thread_step tid) s = Some s1
          ∧ complete_with_event_ (factory s1) = None
          ∧ frames s1 !! tid = Some (in_event_function e (at_invoke p f))
          ∧ step (thread_step tid) s1 = Some s2
          ∧ trace s2 = trace s ++ [ev_set_value tid p (op_receiver_ self) e]
  | None =>
      step (thread_step tid) s = Some s
      ∧ ∃ j s1 s2 s3,
          frames s !! j = Some (in_start p at_cas_complete)
          ∧ run_ok create_event_sender_range (acts ++ [thread_step j]) = Some s1
          ∧ terminated s1 = false
          ∧ complete_with_event_ (factory s1) = Some (op_inst self)
          ∧ frames s1 !! tid = Some (in_event_function e (at_spin p))
          ∧ step (thread_step tid) s1 = Some s2
          ∧ complete_with_event_ (factory s2) = None
          ∧ frames s2 !! tid
            = Some (in_event_function e (at_invoke p (op_inst self)))
          ∧ step (thread_step tid) s2 = Some s3
          ∧ trace s3 = trace s ++ [ev_set_value tid p (op_receiver_ self) e]
  end.
Proof.
  intros Hok Halive Htid. pose proof (run_ok_usage_inv _ _ Hok) as Hinv.
  pose proof (ui_running _ Hinv) as Hrun.
  destruct (complete_with_event_ (factory s)) as [f|] eqn:Hc.
  - destruct (spin_takes_trampoline _ _ _ _ _ Hinv Halive Htid Hc)
      as (self & s1 & s2 & Hp & Hf & H).
    exists self. split; [done|]. split; [done|]. eauto.
  - pose proof (balance_window s (ui_balance _ Hinv)) as Hw.
    pose proof (countb_lookup fr_spin _ _ _ Htid eq_refl) as Hs.
    assert (1 ≤ countb fr_cas_complete (frames s)) as Hcas.
    { unfold trampoline_set in Hw. rewrite Hc in Hw. simpl in Hw. lia. }
    apply countb_pos in Hcas as (j & [e' pc|q [| |]] & Hj & Hpc); try done.
    assert (p = q) as <- by (eapply (ui_owner _ Hinv); [done|right; eauto]).
    destruct (ui_heap _ Hinv _ _ _ Hj) as [self Hp].
    exists self. split; [done|]. split.
    { erewrite step_view_step; [|done|done|by apply sv_spin_miss].
      f_equal. rewrite <- Hc at 1.
      by rewrite set_complete_with_event_id, set_factory_id, set_frame_id. }
    set (s1 := set_frame j (in_start p st_returned)
                 (set_factory (set_complete_with_event (Some (op_inst self))
                                 (factory s)) s)).
    assert (step (thread_step j) s = Some s1) as Hstep
      by (by eapply step_view_step, sv_cas_complete_ok).
    assert (run_ok create_event_sender_range (acts ++ [thread_step j]) = Some s1)
      as Hok1 by (by rewrite run_ok_app, Hok; simpl; rewrite Hstep).
    assert (frames s1 !! tid = Some (in_event_function e (at_spin p))) as Htid1.
    { simpl. rewrite list_lookup_insert_ne; [done|]. intros ->. congruence. }
    destruct (spin_takes_trampoline s1 tid e p (op_inst self))
      as (self' & s2 & s3 & Hp' & _ & H1 & H2 & H3 & H4 & H5);
      [by eapply run_ok_usage_inv|done|done|done|].
    assert (self' = self) as -> by (simpl in Hp'; congruence).
    exists j, s1, s2, s3. split_and!; done.
Qed.
Lemma spin_misses_app tid s s1 (acts1 acts2 : list action) :
  run s acts1 = Some s1 →
  spin_misses tid s (acts1 ++ acts2)
  = spin_misses tid s acts1 + spin_misses tid s1 acts2.
Proof.
  revert s. induction acts1 as [|a acts1 IH]; intros s Hrun; simplify_eq/=;
    [done|].
  destruct (step a s) as [s'|] eqn:Hstep; simplify_eq/=.
  rewrite (IH _ Hrun). lia.
Qed.
(** ** Registration *)



Lemma live_range_nonempty s rid r : live_range s rid = Some r → ranges s ≠ [].
Proof. unfold live_range. by intros H Hnil; rewrite Hnil in H. Qed.








(** ** The sequence of senders *)

Lemma run_started_in_heap (acts : list action) s :
  run create_event_sender_range acts = Some s →
  ∀ j q pc, frames s !! j = Some (in_start q pc) → is_Some (heap s !! q).
Proof.
  intros Hrun.
  eapply (run_invariant
    (λ s, ∀ j q pc, frames s !! j = Some (in_start q pc) → is_Some (heap s !! q)));
    eauto using started_in_heap_step.
  intros j q pc Hj. done.
Qed.

Lemma pending_step a s s' p :
  step a s = Some s' →
  pendingOperation_ (factory s') = Some p →
  pendingOperation_ (factory s) = Some p
  ∨ ∃ tid, a = thread_step tid
           ∧ frames s !! tid = Some (in_start p at_cas_pending).
Proof.
  intros (_ & _ & Hv)%step_inv Hp.
  destruct Hv; simpl in *; simplify_eq; eauto.
Qed.

Lemma step_range_next_inv rid i s s' :
  step (range_next rid i) s = Some s' →
  ∃ r, live_range s rid = Some r
       ∧ s' = set_senders (senders s ++ [range_deref r i]) s.
Proof. intros (_ & _ & Hv)%step_inv. inversion Hv. eauto. Qed.

Lemma step_connect_inv sid inst receiver s s' :
  step (call_connect sid inst receiver) s = Some s' →
  ∃ snd, senders s !! sid = Some snd
         ∧ s' = set_heap (heap s ++ [connect snd inst receiver]) s.
Proof. intros (_ & _ & Hv)%step_inv. inversion Hv. eauto. Qed.

(** C8: advancing the range yields one sender and connecting it yields one
    operation state, on which [start] has not been called; neither step
    touches the factory, so neither changes the slot.  An operation gets
    into [pendingOperation_], and a trampoline into [complete_with_event_],
    only by a step of [start]: lines 80 and 84. *)
Theorem advance_does_not_publish :
  (∀ rid i s s',
     step (range_next rid i) s = Some s' →
     factory s' = factory s ∧ frames s' = frames s ∧ heap s' = heap s
     ∧ ∃ r, live_range s rid = Some r
            ∧ senders s' = senders s ++ [range_deref r i])
  ∧ (∀ (acts : list action) sid inst receiver s s',
       run create_event_sender_range acts = Some s →
       step (call_connect sid inst receiver) s = Some s' →
       factory s' = factory s ∧ frames s' = frames s ∧ senders s' = senders s
       ∧ starts_of (length (heap s)) (frames s') = 0
       ∧ ∃ snd, senders s !! sid = Some snd
                ∧ heap s' = heap s ++ [connect snd inst receiver])
  ∧ (∀ a s s' p,
       step a s = Some s' →
       pendingOperation_ (factory s') = Some p →
       pendingOperation_ (factory s) ≠ Some p →
       ∃ tid, a = thread_step tid
              ∧ frames s !! tid = Some (in_start p at_cas_pending))
  ∧ (∀ a s s' f,
       step a s = Some s' →
       complete_with_event_ (factory s') = Some f →
       complete_with_event_ (factory s) ≠ Some f →
       ∃ tid q, a = thread_step tid
                ∧ frames s !! tid = Some (in_start q at_cas_complete)
                ∧ has_inst s q f).
Proof.
  split; [|split; [|split]].
  - intros rid i s s' (r & Hr & ->)%step_range_next_inv. simpl.
    split_and!; eauto.
  - intros acts sid inst receiver s s' Hrun (snd & Hsnd & ->)%step_connect_inv.
    simpl.
    split; [done|]. split; [done|]. split; [done|]. split; [|eauto].
    destruct (starts_of (length (heap s)) (frames s)) as [|n] eqn:Hn; [done|].
    exfalso.
    assert (1 ≤ starts_of (length (heap s)) (frames s)) as Hpos by lia.
    apply countb_pos in Hpos as (j & [e pc|q pc] & Hj & Hq); [done|].
    simpl in Hq. apply bool_decide_eq_true in Hq as <-.
    destruct (run_started_in_heap _ _ Hrun _ _ _ Hj) as [self Hself].
    apply lookup_lt_Some in Hself. lia.
  - intros a s s' p Hstep Hp Hne.
    by destruct (pending_step _ _ _ _ Hstep Hp).
  - intros a s s' f Hstep Hf Hne.
    by destruct (trampoline_step _ _ _ _ Hstep Hf).
Qed.
(** ** Stop tokens *)

Lemma retoken_live_range g s rid :
  live_range (retoken g s) rid = retoken_range g <$> live_range s rid.
Proof.
  unfold live_range. simpl. rewrite list_lookup_fmap.
  by destruct (ranges s !! rid) as [[r|]|].
Qed.

Lemma live_range_lt s rid r : live_range s rid = Some r → rid < length (ranges s).
Proof.
  unfold live_range. intros H. apply lookup_lt_is_Some.
  by destruct (ranges s !! rid).
Qed.

(** Replacing the stop tokens commutes with every step: no step looks at
    them. *)
Lemma retoken_step g a s :
  step (retoken_action g a) (retoken g s) = retoken g <$> step a s.
Proof.
  unfold step. simpl.
  destruct (terminated s); [done|]. destruct (factory_alive s); simpl; [|done].
  destruct a as [token reg|rid|rid|rid i|sid inst receiver|p|e|tid|]; simpl.
  - unfold factory_start, retoken. simpl. by rewrite fmap_app.
  - rewrite retoken_live_range. destruct (live_range s rid); simpl; [|done].
    unfold retoken. simpl. by rewrite fmap_app.
  - rewrite retoken_live_range. destruct (live_range s rid); simpl; [|done].
    unfold sender_range_destructor. simpl.
    destruct (storage_ (factory s)); simpl; try done.
    unfold retoken. simpl. by rewrite list_fmap_insert.
  - rewrite retoken_live_range. destruct (live_range s rid); simpl; [|done].
    unfold retoken. simpl. by rewrite fmap_app.
  - rewrite list_lookup_fmap. destruct (senders s !! sid); simpl; [|done].
    unfold retoken. simpl. by rewrite fmap_app.
  - rewrite list_lookup_fmap. by destruct (heap s !! p).
  - done.
  - destruct (frames s !! tid) as [[e pc|p pc]|]; simpl; [| |done].
    + destruct pc as [|p|p f|o]; simpl; try done.
      * by destruct (pendingOperation_ (factory s)).
      * by destruct (complete_with_event_ (factory s)).
      * unfold complete_with_event. simpl. rewrite list_lookup_fmap.
        destruct (heap s !! p) as [self|]; simpl; [|done].
        by case_decide.
    + destruct pc; simpl; try done.
      * unfold compare_exchange_strong. by case_decide.
      * rewrite list_lookup_fmap. destruct (heap s !! p) as [self|]; simpl; [|done].
        unfold compare_exchange_strong. by case_decide.
  - done.
Qed.

Lemma token_inv_step token a s s' :
  is_call_start a = false → step a s = Some s' →
  token_inv token s → token_inv token s'.
Proof.
  intros Ha (_ & _ & Hv)%step_inv [Hr Hs Hh].
  split.
  - intros rid' r' Hlive. unfold live_range in *.
    destruct Hv; simpl in *; try done; eauto.
    + destruct (decide (rid' < length (ranges s))).
      * rewrite lookup_app_l in Hlive by done. eauto.
      * rewrite lookup_app_r in Hlive by lia.
        destruct (rid' - length (ranges s)); simplify_eq/=; eauto.
    + destruct (decide (rid' = rid)) as [->|].
      * rewrite list_lookup_insert_eq in Hlive; [simplify_eq/=|].
        by eapply live_range_lt.
      * rewrite list_lookup_insert_ne in Hlive by done. eauto.
  - intros sid' snd' Hsnd.
    destruct Hv; simpl in *; eauto.
    apply lookup_app_Some in Hsnd as [?|[_ Hsnd]]; [by eauto|].
    destruct (sid' - length (senders s)); simplify_eq/=. eauto.
  - intros p' self' Hp'.
    destruct Hv; simpl in *; eauto.
    apply lookup_app_Some in Hp' as [?|[_ Hp']]; [by eauto|].
    destruct (p' - length (heap s)); simplify_eq/=. eauto.
Qed.

Lemma token_inv_run token (acts : list action) s s' :
  forallb (λ a, negb (is_call_start a)) acts = true →
  run s acts = Some s' → token_inv token s → token_inv token s'.
Proof.
  revert s. induction acts as [|a acts IH]; intros s Hacts Hrun Hs;
    simplify_eq/=; [done|].
  apply andb_true_iff in Hacts as [Ha Hacts].
  destruct (step a s) as [s1|] eqn:Hstep; simplify_eq/=.
  eapply IH; [done..|]. eapply token_inv_step; [|done..].
  by destruct (is_call_start a).
Qed.

(** C9: the token given to [start] is the token of every operation made
    from the stream; and the delivery path does not depend on it: whatever
    tokens two states hold, if they agree on everything else, a call of the
    event function or a step of one ([complete_with_event] included) takes
    them to states that agree on everything else, with the same trace, or
    is undefined in both. *)
Theorem stop_token_not_consulted :
  (∀ token reg (body : list action) s p self,
     forallb (λ a, negb (is_call_start a)) body = true →
     run create_event_sender_range (call_start token reg :: body) = Some s →
     heap s !! p = Some self → op_stopToken_ self = token)
  ∧ (∀ g inst tid p e s,
       complete_with_event inst tid p e (retoken g s)
       = retoken g <$> complete_with_event inst tid p e s)
  ∧ (∀ t0 a s1 s2,
       retoken (λ _, t0) s1 = retoken (λ _, t0) s2 →
       delivery_action a s1 = true →
       retoken (λ _, t0) <$> step a s1 = retoken (λ _, t0) <$> step a s2)
  ∧ (∀ g s, trace (retoken g s) = trace s ∧ factory (retoken g s) = factory s
            ∧ frames (retoken g s) = frames s).
Proof.
  split; [|split; [|split]].
  - intros token reg body s p self Hbody Hrun Hp. simpl in Hrun.
    eapply (ti_heap token s); [|done].
    eapply token_inv_run; [done..|].
    split; simpl; [|done..].
    intros [|rid] r; unfold live_range; simpl; [|done].
    by intros [= <-].
  - intros g inst tid p e s. unfold complete_with_event. simpl.
    rewrite list_lookup_fmap. destruct (heap s !! p) as [self|]; simpl; [|done].
    by case_decide.
  - intros t0 a s1 s2 Heq Ha.
    assert (retoken_action (λ _ : StopToken, t0) a = a) as Hact
      by (by destruct a).
    rewrite <- !retoken_step, Hact. by rewrite Heq.
  - done.
Qed.
(** ** A factory that is never started *)

Lemma unstarted_inv_step a s s' :
  is_call_start a = false → step a s = Some s' →
  unstarted_inv s → unstarted_inv s'.
Proof.
  intros Ha (_ & _ & Hv)%step_inv [Hf Htr Hr Hsn Hh [Hst Hho]].
  destruct Hv; simpl in *; try done.
  all: try (unfold live_range in *; rewrite Hr in *; done).
  all: try (rewrite Hsn in *; done).
  all: try (rewrite Hh in *; done).
  all: try (rewrite Hf in *; done).
  all: try match goal with
    | H : frames _ !! _ = Some _ |- _ =>
        first [ pose proof (countb_lookup (fr_is_start None) _ _ _ H eq_refl)
              | pose proof (countb_lookup (fr_holds None) _ _ _ H eq_refl) ]; lia
    end.
  - split; simpl; try done. split; rewrite countb_app; simpl; lia.
  - split; simpl; try done.
    + by rewrite Hf.
    + split; count_insert; lia.
Qed.

Lemma unstarted_inv_run (acts : list action) s s' :
  forallb (λ a, negb (is_call_start a)) acts = true →
  run s acts = Some s' → unstarted_inv s → unstarted_inv s'.
Proof.
  revert s. induction acts as [|a acts IH]; intros s Hacts Hrun Hs;
    simplify_eq/=; [done|].
  apply andb_true_iff in Hacts as [Ha Hacts].
  destruct (step a s) as [s1|] eqn:Hstep; simplify_eq/=.
  eapply IH; [done..|]. eapply unstarted_inv_step; [|done..].
  by destruct (is_call_start a).
Qed.

(** C10: in a life of the factory without a call of [start(token)], its
    destruction included, neither [registerFn_] nor [unregisterFn_] is
    called (the trace stays empty), [storage_] keeps [empty_] as its active
    member, and [pendingOperation_] and [complete_with_event_] stay empty;
    this holds at every point of the run. *)
Theorem unstarted_factory_is_inert (acts1 acts2 : list action) s :
  forallb (λ a, negb (is_call_start a)) (acts1 ++ acts2) = true →
  run create_event_sender_range (acts1 ++ acts2) = Some s →
  ∃ s1, run create_event_sender_range acts1 = Some s1
    ∧ registration_events (trace s1) = []
    ∧ storage_ (factory s1) = storage_empty 0
    ∧ pendingOperation_ (factory s1) = None
    ∧ complete_with_event_ (factory s1) = None.
Proof.
  intros Hacts Hrun. rewrite run_app in Hrun.
  destruct (run create_event_sender_range acts1) as [s1|] eqn:Hrun1;
    simplify_eq/=.
  rewrite forallb_app in Hacts. apply andb_true_iff in Hacts as [Hacts1 _].
  exists s1. split; [done|].
  destruct (unstarted_inv_run acts1 _ s1 Hacts1 Hrun1) as [Hf Htr _ _ _ _].
  { split; simpl; done. }
  rewrite Hf, Htr. done.
Qed.
End BridgeFacts.

(** ** The loop of the delivery has no bound *)
Lemma window_prefix_run :
  run_ok create_event_sender_range window_prefix = Some window_state
  ∧ spin_misses 1 create_event_sender_range window_prefix = 0.
Proof. split; reflexivity. Qed.

Lemma window_spin n :
  run_ok window_state (repeat (thread_step 1) n) = Some window_state
  ∧ spin_misses 1 window_state (repeat (thread_step 1) n) = n.
Proof.
  induction n as [|n [IH1 IH2]]; [done|].
  split.
  - change (run_ok window_state (repeat (thread_step 1) n) = Some window_state).
    done.
  - change (1 + spin_misses 1 window_state (repeat (thread_step 1) n) = S n).
    by rewrite IH2.
Qed.

Lemma window_run_spins n :
  run_ok create_event_sender_range (window_run n) = Some window_state
  ∧ spin_misses 1 create_event_sender_range (window_run n) = n.
Proof.
  destruct window_prefix_run as [H1 H2]. destruct (window_spin n) as [H3 H4].
  unfold window_run. split.
  - by rewrite run_ok_app, H1.
  - rewrite (spin_misses_app 1 _ window_state) by (by apply run_ok_run).
    rewrite H2, H4. done.
Qed.

(** C5, counterexample to a bounded spin: the loop of lines 46-48 has no bound.
    Under correct usage (one operation started, one event) the delivery of
    [window_run n] misses the trampoline [n] times, for every [n]. *)
Lemma spin_is_not_bounded :
  ¬ ∃ B : nat, ∀ acts s,
      run_ok (create_event_sender_range : system Z unit nat unit) acts = Some s →
      spin_misses 1 create_event_sender_range acts ≤ B.
Proof.
  intros [B HB]. destruct (window_run_spins (S B)) as [H1 H2].
  specialize (HB _ _ H1). lia.
Qed.

(** ** Whole calls, one after the other *)

Section ScheduleFacts.
Context {EventType StopToken Receiver Registration : Type}
        `{!TriviallyDestructible Registration}.
#[local] Abbreviation system := (system EventType StopToken Receiver Registration).
#[local] Abbreviation action := (action EventType StopToken Receiver Registration).
Implicit Types (s : system) (a : action).

Lemma lookup_snoc0 {A : Type} (l l' : list A) x : (l ++ x :: l') !! length l = Some x.
Proof. by apply list_lookup_middle. Qed.

Lemma lookup_snoc1 {A : Type} (l l' : list A) x y :
  (l ++ x :: y :: l') !! S (length l) = Some y.
Proof.
  rewrite lookup_app_r by lia. by replace (S (length l) - length l) with 1 by lia.
Qed.

Lemma insert_snoc0 {A : Type} (l l' : list A) x z :
  <[length l := z]> (l ++ x :: l') = l ++ z :: l'.
Proof. rewrite insert_app_r_alt by lia. by rewrite Nat.sub_diag. Qed.

Lemma insert_snoc1 {A : Type} (l l' : list A) x y z :
  <[S (length l) := z]> (l ++ x :: y :: l') = l ++ x :: z :: l'.
Proof.
  rewrite insert_app_r_alt by lia.
  by replace (S (length l) - length l) with 1 by lia.
Qed.

Lemma snoc_snoc {A : Type} (l : list A) x y : (l ++ [x]) ++ [y] = l ++ [x; y].
Proof. by rewrite <- app_assoc. Qed.

(** Under correct usage, with no operation in flight both fields of the
    slot are empty. *)
Lemma idle_slot_empty s :
  usage_inv s → in_flight s = 0 →
  pendingOperation_ (factory s) = None
  ∧ complete_with_event_ (factory s) = None.
Proof.
  intros Hinv Hfl.
  pose proof (balance_window s (ui_balance _ Hinv)) as Hw.
  unfold in_flight in Hfl.
  split; [apply pending_about_None|apply trampoline_set_false];
    destruct (pending_about None s), (trampoline_set s); simpl in *; lia.
Qed.

Lemma factory_eta (f : event_sender_range_factory Registration) :
  Factory (storage_ f) (pendingOperation_ f) (complete_with_event_ f) = f.
Proof. by destruct f. Qed.

Lemma run_step s a s1 (acts : list action) :
  step a s = Some s1 → run s (a :: acts) = run s1 acts.
Proof. intros H. simpl. by rewrite H. Qed.

(** The steps of a running process, on states written out. *)
Section Steps.
Context (sto : storage Registration) (rs : list (option (sender_range StopToken)))
  (sn : list (event_sender StopToken))
  (hp : list (event_operation_state StopToken Receiver))
  (fr : list (frame EventType)) (tr : list (event EventType Receiver Registration)).
Implicit Types (pend : option nat) (cwe : option nat).

Lemma step_call_start pend cwe q selfq :
  hp !! q = Some selfq →
  step (call_operation_start q)
    (System (Factory sto pend cwe) true rs sn hp fr tr false)
  = Some (System (Factory sto pend cwe) true rs sn hp
            (fr ++ [in_start q at_cas_pending]) tr false).
Proof. intros Hq. unfold step. simpl. by rewrite Hq. Qed.

Lemma step_call_event pend cwe e :
  step (call_event_function e)
    (System (Factory sto pend cwe) true rs sn hp fr tr false)
  = Some (System (Factory sto pend cwe) true rs sn hp
            (fr ++ [in_event_function e at_exchange_pending]) tr false).
Proof. done. Qed.

Lemma step_cas_pending cwe i q :
  fr !! i = Some (in_start q at_cas_pending) →
  step (thread_step i) (System (Factory sto None cwe) true rs sn hp fr tr false)
  = Some (System (Factory sto (Some q) cwe) true rs sn hp
            (<[i := in_start q at_cas_complete]> fr) tr false).
Proof. intros Hi. unfold step. simpl. by rewrite Hi. Qed.

Lemma step_cas_complete pend i q selfq :
  fr !! i = Some (in_start q at_cas_complete) → hp !! q = Some selfq →
  step (thread_step i) (System (Factory sto pend None) true rs sn hp fr tr false)
  = Some (System (Factory sto pend (Some (op_inst selfq))) true rs sn hp
            (<[i := in_start q st_returned]> fr) tr false).
Proof. intros Hi Hq. unfold step. simpl. rewrite Hi. simpl. by rewrite Hq. Qed.

Lemma step_take cwe i e q :
  fr !! i = Some (in_event_function e at_exchange_pending) →
  step (thread_step i) (System (Factory sto (Some q) cwe) true rs sn hp fr tr false)
  = Some (System (Factory sto None cwe) true rs sn hp
            (<[i := in_event_function e (at_spin q)]> fr) tr false).
Proof. intros Hi. unfold step. simpl. by rewrite Hi. Qed.

Lemma step_drop cwe i e :
  fr !! i = Some (in_event_function e at_exchange_pending) →
  step (thread_step i) (System (Factory sto None cwe) true rs sn hp fr tr false)
  = Some (System (Factory sto None cwe) true rs sn hp
            (<[i := in_event_function e (ef_returned None)]> fr) tr false).
Proof. intros Hi. unfold step. simpl. by rewrite Hi. Qed.

Lemma step_spin_hit pend i e q f :
  fr !! i = Some (in_event_function e (at_spin q)) →
  step (thread_step i) (System (Factory sto pend (Some f)) true rs sn hp fr tr false)
  = Some (System (Factory sto pend None) true rs sn hp
            (<[i := in_event_function e (at_invoke q f)]> fr) tr false).
Proof. intros Hi. unfold step. simpl. by rewrite Hi. Qed.

Lemma step_spin_miss pend i e q :
  fr !! i = Some (in_event_function e (at_spin q)) →
  step (thread_step i) (System (Factory sto pend None) true rs sn hp fr tr false)
  = Some (System (Factory sto pend None) true rs sn hp fr tr false).
Proof.
  intros Hi. unfold step. simpl. rewrite Hi. simpl.
  unfold set_frame, set_frames. simpl. by rewrite list_insert_id.
Qed.

Lemma step_invoke pend cwe i e q selfq :
  fr !! i = Some (in_event_function e (at_invoke q (op_inst selfq))) →
  hp !! q = Some selfq →
  step (thread_step i) (System (Factory sto pend cwe) true rs sn hp fr tr false)
  = Some (System (Factory sto pend cwe) true rs sn hp
            (<[i := in_event_function e (ef_returned (Some q))]> fr)
            (tr ++ [ev_set_value i q (op_receiver_ selfq) e]) false).
Proof.
  intros Hi Hq. unfold step. simpl. rewrite Hi. simpl.
  unfold complete_with_event. simpl. rewrite Hq. by rewrite decide_True.
Qed.

End Steps.

Ltac run_one lem :=
  erewrite run_step;
  [|apply lem; first [apply lookup_snoc0 | apply lookup_snoc1 | eassumption]];
  rewrite ?insert_snoc0, ?insert_snoc1.

(** The steps of [start] and of a delivery, on a slot with both fields
    empty, whatever the usage. *)
Lemma start_steps s q selfq :
  terminated s = false → factory_alive s = true →
  pendingOperation_ (factory s) = None →
  complete_with_event_ (factory s) = None →
  heap s !! q = Some selfq →
  run s (whole_start q (length (frames s)))
  = Some (set_frames (frames s ++ [in_start q st_returned])
            (set_factory (Factory (storage_ (factory s)) (Some q)
                            (Some (op_inst selfq))) s)).
Proof.
  destruct s as [[sto pend tramp] alive rs sn hp fr tr term].
  cbn [terminated factory_alive factory pendingOperation_ complete_with_event_
       heap frames storage_].
  intros -> -> -> -> Hq. unfold whole_start.
  erewrite run_step by (by eapply step_call_start).
  run_one step_cas_pending.
  erewrite run_step by (by eapply step_cas_complete; [apply lookup_snoc0|]).
  by rewrite insert_snoc0.
Qed.

Lemma delivery_steps s q selfq e :
  terminated s = false → factory_alive s = true →
  pendingOperation_ (factory s) = Some q →
  complete_with_event_ (factory s) = Some (op_inst selfq) →
  heap s !! q = Some selfq →
  run s (whole_delivery e (length (frames s)))
  = Some (set_frames (frames s ++ [in_event_function e (ef_returned (Some q))])
            (set_factory (Factory (storage_ (factory s)) None None)
               (emit (ev_set_value (length (frames s)) q (op_receiver_ selfq) e) s))).
Proof.
  destruct s as [[sto pend tramp] alive rs sn hp fr tr term].
  cbn [terminated factory_alive factory pendingOperation_ complete_with_event_
       heap frames storage_].
  intros -> -> -> -> Hq. unfold whole_delivery.
  erewrite run_step by apply step_call_event.
  run_one step_take. run_one step_spin_hit.
  erewrite run_step by (by eapply step_invoke; [apply lookup_snoc0|]).
  by rewrite insert_snoc0.
Qed.

Lemma run_ok_eq_run s (acts : list action) :
  Forall (λ a, usage_ok a s = true ∧ ∀ p, a ≠ call_operation_start p) acts →
  run_ok s acts = run s acts.
Proof.
  revert s. induction acts as [|a acts IH]; intros s Hacts; [done|].
  apply Forall_cons in Hacts as [[Hok Ha] Hacts].
  rewrite run_ok_cons, Hok. simpl run.
  destruct (step a s) as [s1|]; simpl; [|done].
  apply IH. eapply Forall_impl; [done|]. intros a' [_ Ha']. split; [|done].
  destruct a'; try done. by destruct (Ha' p).
Qed.

(** A run that begins with a call of [start] is under correct usage if that
    call is, when no other call of [start] follows. *)
Lemma run_ok_start s q (acts : list action) :
  usage_ok (call_operation_start q) s = true →
  Forall (λ a, ∀ p, a ≠ call_operation_start p) acts →
  run_ok s (call_operation_start q :: acts) = run s (call_operation_start q :: acts).
Proof.
  intros Hok Hacts. rewrite run_ok_cons, Hok. simpl run.
  destruct (step _ s) as [s1|]; simpl; [|done].
  apply run_ok_eq_run. eapply Forall_impl; [done|]. intros a Ha. split; [|done].
  destruct a; try done. by destruct (Ha p).
Qed.

Lemma system_eta s :
  System (factory s) (factory_alive s) (ranges s) (senders s) (heap s)
    (frames s) (trace s) (terminated s) = s.
Proof. by destruct s. Qed.

Lemma run_app_Some s s1 (acts1 acts2 : list action) :
  run s acts1 = Some s1 → run s (acts1 ++ acts2) = run s1 acts2.
Proof. intros H. by rewrite run_app, H. Qed.

Lemma sequential_outcome s q selfq e :
  terminated s = false → factory_alive s = true →
  pendingOperation_ (factory s) = None →
  complete_with_event_ (factory s) = None →
  heap s !! q = Some selfq →
  run s (whole_start q (length (frames s))
         ++ whole_delivery e (S (length (frames s))))
  = Some (handed_over s q (op_receiver_ selfq) e).
Proof.
  intros Hrun Halive Hp Hc Hq.
  rewrite (run_app_Some _ _ _ _ (start_steps s q selfq Hrun Halive Hp Hc Hq)).
  set (s1 := set_frames _ _).
  replace (S (length (frames s))) with (length (frames s1))
    by (subst s1; cbn [frames set_frames]; rewrite length_app; simpl; lia).
  rewrite (delivery_steps s1 q selfq) by done.
  f_equal. subst s1. unfold handed_over, set_frames, set_factory, emit.
  cbn [factory factory_alive ranges senders heap frames trace terminated storage_].
  rewrite snoc_snoc, length_app. simpl length.
  replace (length (frames s) + 1) with (S (length (frames s))) by lia.
  f_equal. rewrite <- Hp at 1. rewrite <- Hc at 1. apply factory_eta.
Qed.

Lemma run_repeat_idle s a k (acts : list action) :
  step a s = Some s → run s (repeat a k ++ acts) = run s acts.
Proof.
  intros H. induction k as [|k IH]; [done|].
  change (run s (a :: (repeat a k ++ acts)) = run s acts).
  by rewrite (run_step _ _ _ _ H).
Qed.

Lemma window_outcome s q selfq e k :
  terminated s = false → factory_alive s = true →
  pendingOperation_ (factory s) = None →
  complete_with_event_ (factory s) = None →
  heap s !! q = Some selfq →
  run s (window_delivery q e (length (frames s)) k)
  = Some (handed_over s q (op_receiver_ selfq) e).
Proof.
  destruct s as [[sto pend tramp] alive rs sn hp fr tr term].
  cbn [terminated factory_alive factory pendingOperation_ complete_with_event_
       heap frames storage_].
  intros -> -> -> -> Hq. unfold window_delivery.
  change ([?a; ?b; ?c; ?d] ++ ?l) with (a :: b :: c :: d :: l).
  erewrite run_step by (by eapply step_call_start).
  run_one step_cas_pending.
  erewrite run_step by apply step_call_event.
  rewrite snoc_snoc. run_one step_take.
  rewrite run_repeat_idle by (eapply step_spin_miss, lookup_snoc1).
  erewrite run_step by (by eapply step_cas_complete; [apply lookup_snoc0|]).
  rewrite insert_snoc0.
  run_one step_spin_hit.
  erewrite run_step by (by eapply step_invoke; [apply lookup_snoc1|]).
  by rewrite insert_snoc1.
Qed.

Lemma no_start_in_tail (acts : list action) :
  forallb (λ a, match a with call_operation_start _ => false | _ => true end) acts
  = true →
  Forall (λ a, ∀ p, a ≠ call_operation_start p) acts.
Proof.
  intros H. apply Forall_forall. intros a Ha p ->.
  rewrite forallb_forall in H. specialize (H _ (proj1 (list_elem_of_In _ _) Ha)).
  done.
Qed.

Lemma handed_over_idle s q receiver (e : EventType) :
  idle s = true → idle (handed_over s q receiver e) = true.
Proof.
  unfold idle, handed_over. simpl. intros H%bool_decide_eq_true.
  apply bool_decide_eq_true. rewrite !countb_app. simpl. lia.
Qed.

Lemma publish_round s q selfq e :
  usage_inv s → factory_alive s = true → idle s = true →
  heap s !! q = Some selfq → starts_of q (frames s) = 0 →
  run_ok s (whole_start q (length (frames s))
            ++ whole_delivery e (S (length (frames s))))
  = Some (handed_over s q (op_receiver_ selfq) e)
  ∧ pendingOperation_ (factory s) = None
  ∧ complete_with_event_ (factory s) = None.
Proof.
  intros Hinv Halive Hidle Hq Hnew.
  pose proof (idle_in_flight s (ui_balance _ Hinv) Hidle) as Hfl.
  destruct (idle_slot_empty s Hinv Hfl) as [Hp Hc].
  split; [|done].
  change (whole_start q (length (frames s))
          ++ whole_delivery e (S (length (frames s))))
    with ((call_operation_start q : action)
          :: ([thread_step (length (frames s)); thread_step (length (frames s))]
              ++ whole_delivery e (S (length (frames s))))).
  rewrite run_ok_start.
  - apply sequential_outcome; try done. apply Hinv.
  - unfold usage_ok. rewrite Hidle, Hnew. done.
  - by apply no_start_in_tail.
Qed.

(** X1: from any state reached under correct usage with no operation in
    flight, [start] on a fresh operation followed by one call of the event
    function hands the event to the receiver of that operation, by one
    [set_value], and leaves the slot as it was: empty and idle again. *)
Theorem publish_then_deliver (acts : list action) s q selfq e :
  run_ok create_event_sender_range acts = Some s →
  factory_alive s = true → idle s = true →
  heap s !! q = Some selfq → starts_of q (frames s) = 0 →
  ∃ s', run_ok s (whole_start q (length (frames s))
                  ++ whole_delivery e (S (length (frames s)))) = Some s'
    ∧ trace s' = trace s
                 ++ [ev_set_value (S (length (frames s))) q (op_receiver_ selfq) e]
    ∧ frames s' = frames s ++ [in_start q st_returned;
                                in_event_function e (ef_returned (Some q))]
    ∧ factory s' = factory s
    ∧ pendingOperation_ (factory s') = None
    ∧ complete_with_event_ (factory s') = None
    ∧ idle s' = true.
Proof.
  intros Hok Halive Hidle Hq Hnew.
  pose proof (run_ok_usage_inv _ _ Hok) as Hinv.
  pose proof (idle_in_flight s (ui_balance _ Hinv) Hidle) as Hfl.
  destruct (idle_slot_empty s Hinv Hfl) as [Hp Hc].
  exists (handed_over s q (op_receiver_ selfq) e).
  split.
  { change (whole_start q (length (frames s))
            ++ whole_delivery e (S (length (frames s))))
      with ((call_operation_start q : action)
            :: ([thread_step (length (frames s)); thread_step (length (frames s))]
                ++ whole_delivery e (S (length (frames s))))).
    rewrite run_ok_start.
    - apply sequential_outcome; try done. apply Hinv.
    - unfold usage_ok. rewrite Hidle, Hnew. done.
    - by apply no_start_in_tail. }
  split; [done|]. split; [done|]. split; [done|].
  split; [done|]. split; [done|]. by apply handed_over_idle.
Qed.

(** X2: the outcome does not depend on when the event arrives once [start]
    has executed line 80: if the delivery takes the operation in the window
    before line 84 and misses the trampoline [k] times, the run ends in the
    very state of the run in which the event arrives after [start] has
    returned. *)
Theorem window_delivery_same_outcome (acts : list action) s q selfq e k :
  run_ok create_event_sender_range acts = Some s →
  factory_alive s = true → idle s = true →
  heap s !! q = Some selfq → starts_of q (frames s) = 0 →
  run_ok s (window_delivery q e (length (frames s)) k)
  = run_ok s (whole_start q (length (frames s))
              ++ whole_delivery e (S (length (frames s))))
  ∧ run_ok s (window_delivery q e (length (frames s)) k)
    = Some (handed_over s q (op_receiver_ selfq) e).
Proof.
  intros Hok Halive Hidle Hq Hnew.
  pose proof (run_ok_usage_inv _ _ Hok) as Hinv.
  pose proof (idle_in_flight s (ui_balance _ Hinv) Hidle) as Hfl.
  destruct (idle_slot_empty s Hinv Hfl) as [Hp Hc].
  assert (usage_ok (call_operation_start q) s = true) as Hu
    by (unfold usage_ok; by rewrite Hidle, Hnew).
  assert (run_ok s (window_delivery q e (length (frames s)) k)
          = Some (handed_over s q (op_receiver_ selfq) e)) as Hw.
  { unfold window_delivery.
    change ([?a; ?b; ?c; ?d] ++ ?l) with (a :: b :: c :: d :: l).
    rewrite run_ok_start; [|done|].
    - apply (window_outcome s q selfq e k); try done. apply Hinv.
    - repeat apply Forall_cons_2; try done.
      apply Forall_app. split.
      + apply Forall_forall. intros a Ha%list_elem_of_In%repeat_spec p. by subst.
      + repeat apply Forall_cons_2; done. }
  split; [|done]. rewrite Hw. symmetry.
  change (whole_start q (length (frames s))
          ++ whole_delivery e (S (length (frames s))))
    with ((call_operation_start q : action)
          :: ([thread_step (length (frames s)); thread_step (length (frames s))]
              ++ whole_delivery e (S (length (frames s))))).
  rewrite run_ok_start; [|done|by apply no_start_in_tail].
  apply sequential_outcome; try done. apply Hinv.
Qed.

Lemma handed_to_app (tr1 tr2 : list (event EventType Receiver Registration)) :
  handed_to (tr1 ++ tr2) = handed_to tr1 ++ handed_to tr2.
Proof.
  induction tr1 as [|ev tr1 IH]; [done|]. destruct ev; simpl; by rewrite ?IH.
Qed.

Lemma countb_none {A} (P : A → bool) (l : list A) :
  (∀ i x, l !! i = Some x → P x = false) → countb P l = 0.
Proof.
  intros H. destruct (countb P l) as [|n] eqn:Hn; [done|].
  destruct (countb_pos P l) as (i & x & Hi & Hx); [lia|].
  rewrite (H _ _ Hi) in Hx. done.
Qed.

(** No call of [start] has been made on an operation that does not exist
    yet. *)
Lemma fresh_unstarted s :
  usage_inv s → starts_of (length (heap s)) (frames s) = 0.
Proof.
  intros Hinv. apply countb_none. intros j [e pc|q pc] Hj; [done|].
  simpl. apply bool_decide_eq_false. intros <-.
  destruct (ui_heap s Hinv _ _ _ Hj) as [x Hx].
  apply lookup_lt_Some in Hx. lia.
Qed.

Lemma run_ok_step a s s1 (acts : list action) :
  usage_ok a s = true → step a s = Some s1 →
  run_ok s (a :: acts) = run_ok s1 acts.
Proof. intros Hok Hstep. by rewrite run_ok_cons, Hok, Hstep. Qed.

Lemma drops_outcome (lost : list EventType) : ∀ s,
  usage_inv s → factory_alive s = true → idle s = true →
  ∃ s', run_ok s (drops lost (length (frames s))) = Some s'
    ∧ trace s' = trace s ∧ ranges s' = ranges s ∧ senders s' = senders s
    ∧ heap s' = heap s ∧ factory_alive s' = true ∧ idle s' = true
    ∧ length (frames s') = length (frames s) + length lost
    ∧ ∀ q, starts_of q (frames s') = starts_of q (frames s).
Proof.
  induction lost as [|d lost IH]; intros s Hinv Halive Hidle.
  { exists s. simpl. repeat split; first [done | lia]. }
  pose proof (idle_in_flight s (ui_balance _ Hinv) Hidle) as Hfl.
  destruct (idle_slot_empty s Hinv Hfl) as [Hp Hc].
  destruct s as [[sto pend tramp] alive rs sn hp fr tr term].
  pose proof (ui_running _ Hinv) as Hterm.
  cbn [terminated factory_alive factory pendingOperation_ complete_with_event_
       heap frames storage_] in Hterm, Halive, Hp, Hc.
  subst term alive pend tramp.
  set (s2 := System (Factory sto None None) true rs sn hp
               (fr ++ [in_event_function d (ef_returned None)]) tr false).
  assert (run_ok (System (Factory sto None None) true rs sn hp fr tr false)
            (dropped_delivery d (length fr)) = Some s2) as H2.
  { rewrite run_ok_eq_run by (repeat apply Forall_cons_2; done).
    unfold dropped_delivery.
    erewrite run_step by apply step_call_event.
    erewrite run_step by (eapply step_drop, lookup_snoc0).
    by rewrite insert_snoc0. }
  assert (idle s2 = true) as Hidle2.
  { unfold idle in *. simpl in *. apply bool_decide_eq_true.
    apply bool_decide_eq_true in Hidle. rewrite countb_app. simpl. lia. }
  destruct (IH s2) as (s' & Hrun & Htr & Hrs & Hsn & Hhp & Hal & Hid & Hlen & Hst);
    [by eapply run_ok_invariant|done|done|].
  exists s'. cbn [drops frames]. rewrite run_ok_app, H2. simpl.
  replace (S (length fr)) with (length (frames s2))
    by (simpl; rewrite length_app; simpl; lia).
  rewrite Hrun. repeat split; try done.
  - rewrite Hlen. simpl. rewrite length_app. simpl. lia.
  - intros q. rewrite Hst. unfold starts_of. simpl. rewrite countb_app. simpl. lia.
Qed.

(** [start] and the delivery, whenever the event arrives. *)
Lemma start_and_delivery_outcome s q selfq e window :
  usage_inv s → factory_alive s = true → idle s = true →
  heap s !! q = Some selfq → starts_of q (frames s) = 0 →
  run_ok s (start_and_delivery q e (length (frames s)) window)
  = Some (handed_over s q (op_receiver_ selfq) e).
Proof.
  intros Hinv Halive Hidle Hq Hnew.
  destruct window as [k|]; cbn [start_and_delivery].
  - pose proof (idle_in_flight s (ui_balance _ Hinv) Hidle) as Hfl.
    destruct (idle_slot_empty s Hinv Hfl) as [Hp Hc].
    unfold window_delivery.
    change ([?a; ?b; ?c; ?d] ++ ?l) with (a :: b :: c :: d :: l).
    rewrite run_ok_start.
    + apply (window_outcome s q selfq e k); try done. apply Hinv.
    + unfold usage_ok. by rewrite Hidle, Hnew.
    + repeat apply Forall_cons_2; try done.
      apply Forall_app. split.
      * apply Forall_forall. intros a Ha%list_elem_of_In%repeat_spec p. by subst.
      * repeat apply Forall_cons_2; done.
  - by destruct (publish_round s q selfq e).
Qed.

Lemma served_outcome rid inst (receiver : nat → Receiver) r
    (script : list (list EventType * EventType * option nat * list EventType)) :
  ∀ i sid p tid s,
  usage_inv s → factory_alive s = true → idle s = true →
  live_range s rid = Some r →
  sid = length (senders s) → p = length (heap s) → tid = length (frames s) →
  ∃ s', run_ok s (served rid inst receiver i sid p tid script) = Some s'
    ∧ handed_to (trace s')
      = handed_to (trace s)
        ++ zip (receiver <$> seq i (length script)) (awaited script).
Proof.
  induction script as [|[[[early e] window] lost] script IH];
    intros i sid p tid s Hinv Halive Hidle Hr -> -> ->.
  { exists s. simpl. by rewrite app_nil_r. }
  pose proof (ui_running _ Hinv) as Hterm.
  (* the next sender *)
  set (s1 := set_senders (senders s ++ [range_deref r i]) s).
  assert (step (range_next rid i) s = Some s1) as H1.
  { unfold step. rewrite Hterm, Halive. simpl. by rewrite Hr. }
  (* connect *)
  pose (self := connect (range_deref r i) inst (receiver i)).
  set (s2 := set_heap (heap s ++ [self]) s1).
  assert (step (call_connect (length (senders s)) inst (receiver i)) s1 = Some s2)
    as H2.
  { unfold step. simpl. rewrite Hterm, Halive. simpl.
    by rewrite list_lookup_middle. }
  assert (usage_inv s2) as Hinv2.
  { refine (usage_inv_step _ s1 s2 _ H2 _); [done|].
    by refine (usage_inv_step _ s s1 _ H1 _). }
  (* the events that come before [start] *)
  destruct (drops_outcome early s2 Hinv2) as
    (s3 & H3 & Htr3 & Hrs3 & Hsn3 & Hhp3 & Hal3 & Hid3 & Hlen3 & Hst3); [done..|].
  change (length (frames s2)) with (length (frames s)) in H3, Hlen3.
  assert (usage_inv s3) as Hinv3 by (by eapply run_ok_invariant).
  (* start and the delivery *)
  set (s4 := handed_over s3 (length (heap s)) (receiver i) e).
  assert (run_ok s3 (start_and_delivery (length (heap s)) e
                       (length (frames s) + length early) window) = Some s4) as H4.
  { replace (length (frames s) + length early) with (length (frames s3))
      by (rewrite Hlen3; done).
    apply (start_and_delivery_outcome s3 (length (heap s)) self); try done.
    - rewrite Hhp3. by apply list_lookup_middle.
    - rewrite Hst3. apply (fresh_unstarted s Hinv). }
  assert (usage_inv s4) as Hinv4 by (by eapply run_ok_invariant).
  assert (idle s4 = true) as Hidle4 by (by apply handed_over_idle).
  assert (length (frames s4) = S (S (length (frames s) + length early))) as Hlen4.
  { simpl. rewrite length_app, Hlen3. simpl. lia. }
  (* the events nobody waits for *)
  destruct (drops_outcome lost s4 Hinv4) as
    (s5 & H5 & Htr5 & Hrs5 & Hsn5 & Hhp5 & Hal5 & Hid5 & Hlen5 & _); [done..|].
  rewrite Hlen4 in H5, Hlen5.
  assert (usage_inv s5) as Hinv5 by (by eapply run_ok_invariant).
  assert (live_range s5 rid = Some r) as Hr5
    by (unfold live_range; rewrite Hrs5; simpl; by rewrite Hrs3).
  assert (S (length (senders s)) = length (senders s5)) as Hs5
    by (rewrite Hsn5; simpl; rewrite Hsn3; simpl; rewrite length_app; simpl; lia).
  assert (S (length (heap s)) = length (heap s5)) as Hh5
    by (rewrite Hhp5; simpl; rewrite Hhp3; simpl; rewrite length_app; simpl; lia).
  assert (S (S (length (frames s) + length early)) + length lost
          = length (frames s5)) as Hf5 by (by rewrite Hlen5).
  destruct (IH (S i) (S (length (senders s))) (S (length (heap s)))
              (S (S (length (frames s) + length early)) + length lost) s5
              Hinv5 Hal5 Hid5 Hr5 Hs5 Hh5 Hf5)
    as (s' & Hrun & Htr').
  exists s'. split.
  - cbn [served].
    change ([?a; ?b] ++ ?l) with (a :: b :: l).
    rewrite (run_ok_step (range_next rid i) s s1) by done.
    rewrite (run_ok_step (call_connect _ _ _) s1 s2) by done.
    rewrite run_ok_app, H3. simpl mbind.
    rewrite run_ok_app, H4. simpl mbind.
    rewrite run_ok_app, H5. simpl mbind. exact Hrun.
  - rewrite Htr', Htr5. simpl. rewrite handed_to_app, Htr3. simpl.
    by rewrite <- app_assoc.
Qed.

(** X3: take a consumer that takes the senders of the range one after the
    other, connecting and starting each before it takes the next, and a
    source whose calls of the event function run one at a time.  For each
    sender, events may arrive between [connect] and [start]; one event
    arrives while the operation is pending, either when [start] has
    returned or between its two writes, the delivery then missing the
    trampoline any number of times; and events may arrive after the
    completion.  In every such run, which is correct usage and does not
    terminate, the receiver of the [i]-th sender is handed the [i]-th event
    that arrived while an operation was pending, by one [set_value], in this
    order, and the other events reach no receiver. *)
Theorem events_in_order token reg inst (receiver : nat → Receiver)
    (script : list (list EventType * EventType * option nat * list EventType)) :
  ∃ s, run_ok create_event_sender_range
         (call_start token reg :: served 0 inst receiver 0 0 0 0 script) = Some s
    ∧ handed_to (trace s)
      = zip (receiver <$> seq 0 (length script)) (awaited script)
    ∧ terminated s = false.
Proof.
  set (s0 := factory_start token reg
               (create_event_sender_range
                  : system)).
  destruct (served_outcome 0 inst receiver (SenderRange this (SenderFactory this token))
              script 0 0 0 0 s0) as (s & Hrun & Htr); try done.
  { eapply (usage_inv_step (call_start token reg) create_event_sender_range);
      [done|done|apply usage_inv_init]. }
  exists s. split; [|split].
  - by rewrite (run_ok_step (call_start token reg) create_event_sender_range s0).
  - exact Htr.
  - eapply ui_running, run_ok_invariant; [exact Hrun|].
    eapply (usage_inv_step (call_start token reg) create_event_sender_range);
      [done|done|apply usage_inv_init].
Qed.

Lemma last_registered_snoc o (tr : list (event EventType Receiver Registration)) ev :
  last_registered o (tr ++ [ev])
  = match ev with
    | ev_register r => Some r
    | _ => last_registered o tr
    end.
Proof.
  revert o. induction tr as [|x tr IH]; intros o; [by destruct ev|].
  destruct x; simpl; by rewrite IH.
Qed.

Lemma well_paired_snoc o (tr : list (event EventType Receiver Registration)) ev :
  well_paired o (tr ++ [ev])
  ↔ well_paired o tr
    ∧ match ev with
      | ev_unregister r => last_registered o tr = Some r
      | _ => True
      end.
Proof.
  revert o. induction tr as [|x tr IH]; intros o.
  - destruct ev; simpl; tauto.
  - destruct x; simpl; rewrite IH; tauto.
Qed.

Lemma pairing_step a s s' :
  step a s = Some s' →
  well_paired None (trace s)
  ∧ (∀ r, storage_ (factory s) = storage_registration r →
          last_registered None (trace s) = Some r) →
  well_paired None (trace s')
  ∧ (∀ r, storage_ (factory s') = storage_registration r →
          last_registered None (trace s') = Some r).
Proof.
  intros (_ & _ & Hv)%step_inv [Hw Ho].
  destruct Hv; simpl in *; rewrite ?well_paired_snoc, ?last_registered_snoc;
    try done.
  - split; [done|]. by intros r [= ->].
  - split; [split; [done|by apply Ho]|].
    intros r' Hr'. apply Ho. rewrite H0.
    unfold registration_destructor in Hr'.
    by destruct trivially_destructible.
Qed.

(** X4: in every run, whatever the consumer does, copies of the range and
    further calls of [start(token)] included, each call of [unregisterFn_]
    gets what the most recent call of [registerFn_] before it returned; and
    a registration that [storage_] holds is what the most recent call of
    [registerFn_] returned. *)
Theorem unregister_gets_last_registration (acts : list action) s :
  run create_event_sender_range acts = Some s →
  well_paired None (trace s)
  ∧ ∀ r, storage_ (factory s) = storage_registration r →
         last_registered None (trace s) = Some r.
Proof.
  intros Hrun.
  by apply (run_invariant
              (λ s, well_paired None (trace s)
                    ∧ ∀ r, storage_ (factory s) = storage_registration r →
                           last_registered None (trace s) = Some r)
              pairing_step acts _ _ Hrun).
Qed.

(** X6: [start] called again on an operation that has been completed is not
    told apart from a first call: with the slot empty both compare-exchanges
    succeed, and the next event makes a second call of [set_value] on the
    receiver of the same operation. *)
Theorem restart_is_not_detected s q selfq e e' :
  terminated s = false → factory_alive s = true →
  pendingOperation_ (factory s) = None →
  complete_with_event_ (factory s) = None →
  heap s !! q = Some selfq →
  ∃ s', run s (whole_start q (length (frames s))
               ++ whole_delivery e (S (length (frames s)))
               ++ whole_start q (S (S (length (frames s))))
               ++ whole_delivery e' (S (S (S (length (frames s)))))) = Some s'
    ∧ terminated s' = false
    ∧ starts_of q (frames s') = starts_of q (frames s) + 2
    ∧ trace s'
      = trace s ++ [ev_set_value (S (length (frames s))) q (op_receiver_ selfq) e;
                    ev_set_value (S (S (S (length (frames s))))) q
                      (op_receiver_ selfq) e'].
Proof.
  intros Hterm Halive Hp Hc Hq.
  set (s1 := handed_over s q (op_receiver_ selfq) e).
  assert (length (frames s1) = S (S (length (frames s)))) as Hlen
    by (simpl; rewrite length_app; simpl; lia).
  exists (handed_over s1 q (op_receiver_ selfq) e'). split.
  - rewrite app_assoc.
    rewrite (run_app_Some s s1) by (by apply sequential_outcome).
    rewrite <- Hlen. by apply sequential_outcome.
  - split; [done|]. split.
    + unfold starts_of. simpl. rewrite !countb_app. simpl.
      rewrite bool_decide_true by done. lia.
    + simpl. rewrite length_app. simpl.
      rewrite <- app_assoc. simpl.
      by replace (length (frames s) + 2) with (S (S (length (frames s)))) by lia.
Qed.


(** Under correct usage a delivery that holds an operation, or [start]
    before line 80, finds [pendingOperation_] empty. *)
Lemma busy_slot_pending_empty s :
  usage_inv s →
  1 ≤ countb fr_cas_pending (frames s) + countb fr_invoke (frames s)
      + countb fr_spin (frames s) →
  pendingOperation_ (factory s) = None.
Proof.
  intros Hinv Hbusy.
  pose proof (balance_window s (ui_balance _ Hinv)) as Hw.
  pose proof (ui_single _ Hinv) as Hfl. unfold in_flight in Hfl.
  apply pending_about_None.
  destruct (pending_about None s); [|done]. simpl in Hw.
  destruct (trampoline_set s); simpl in *; lia.
Qed.

(** X8: under correct usage nothing goes wrong: every call that has not
    returned can take its next step, the step keeps the usage correct, and
    the process is not terminated by it. *)
Theorem correct_usage_progress (acts : list action) s tid fr :
  run_ok create_event_sender_range acts = Some s →
  factory_alive s = true →
  frames s !! tid = Some fr → unfinished fr = true →
  ∃ s', run_ok create_event_sender_range (acts ++ [thread_step tid]) = Some s'
        ∧ step (thread_step tid) s = Some s'
        ∧ terminated s' = false.
Proof.
  intros Hok Halive Htid Hfr. pose proof (run_ok_usage_inv _ _ Hok) as Hinv.
  pose proof (ui_running _ Hinv) as Hrun.
  cut (∃ s', step (thread_step tid) s = Some s').
  { intros [s' Hstep]. exists s'.
    assert (run_ok create_event_sender_range (acts ++ [thread_step tid])
            = Some s') as Hok'
      by (by rewrite run_ok_app, Hok; simpl; rewrite Hstep).
    split; [done|]. split; [done|].
    apply (ui_running s'), (run_ok_usage_inv _ _ Hok'). }
  destruct fr as [e [|p|p f|o]|q [| |]]; try done.
  - destruct (pendingOperation_ (factory s)) as [p|] eqn:Hp; eexists;
      apply step_view_step; try done; [by apply sv_take|by apply sv_drop].
  - destruct (complete_with_event_ (factory s)) as [f|] eqn:Hc; eexists;
      apply step_view_step; try done; [by apply sv_spin_hit|by apply sv_spin_miss].
  - destruct (ui_invoke _ Hinv _ _ _ _ Htid) as (self & Hp & Hf).
    eexists. apply step_view_step; try done. by eapply sv_invoke.
  - eexists. apply step_view_step; try done. apply sv_cas_pending_ok; [done|].
    apply busy_slot_pending_empty; [done|].
    pose proof (countb_lookup fr_cas_pending _ _ _ Htid eq_refl). lia.
  - destruct (ui_heap _ Hinv _ _ _ Htid) as [self Hq].
    eexists. apply step_view_step; try done.
    eapply sv_cas_complete_ok; [done..|].
    apply trampoline_set_false.
    pose proof (ui_single _ Hinv) as Hfl. unfold in_flight in Hfl.
    pose proof (countb_lookup fr_cas_complete _ _ _ Htid eq_refl).
    destruct (trampoline_set s); simpl in *; [lia|done].
Qed.

End ScheduleFacts.

(** ** The scenarios of the specification, and the theorems at work *)

(** Two operations, two events: the consumer sees 42, then 7. *)
Example two_events_observed :
  trace <$> run_ok create_event_sender_range two_events_run
  = Some [ev_register tt; ev_set_value 1 0 100 42%Z; ev_set_value 3 1 101 7%Z;
          ev_unregister tt].
Proof. reflexivity. Qed.

(** An event delivered before the operation is started is dropped; the
    operation completes with the later event. *)
Example early_event_dropped :
  trace <$> run_ok create_event_sender_range early_event_run
  = Some [ev_register tt; ev_set_value 2 0 100 2%Z].
Proof. reflexivity. Qed.

Lemma no_duplicate_delivery_witness :
  run create_event_sender_range two_events_run = Some two_events_state
  ∧ length (deliveries_by 1 (trace two_events_state)) ≤ 1.
Proof.
  split; [vm_compute; reflexivity|].
  apply (no_duplicate_delivery two_events_run two_events_state 1).
  vm_compute. reflexivity.
Defined.

Lemma drop_when_idle_witness :
  run create_event_sender_range [call_event_function 1%Z] = Some event_called_state
  ∧ terminated event_called_state = false
  ∧ factory_alive event_called_state = true
  ∧ frames event_called_state !! 0
    = Some (in_event_function 1%Z at_exchange_pending)
  ∧ pendingOperation_ (factory event_called_state) = None
  ∧ ∃ s', step (thread_step 0) event_called_state = Some s'
       ∧ factory s' = factory event_called_state
       ∧ trace s' = trace event_called_state.
Proof.
  do 5 (split; [vm_compute; reflexivity|]).
  destruct (drop_when_idle [call_event_function 1%Z] event_called_state 0 1%Z)
    as (s' & H1 & _ & H3 & H4 & _); [vm_compute; reflexivity..|].
  exists s'. split; [exact H1|]. split; [exact H3|exact H4].
Defined.

Lemma exactly_once_completion_witness :
  run_ok create_event_sender_range before_invoke_run = Some before_invoke_state
  ∧ factory_alive before_invoke_state = true
  ∧ frames before_invoke_state !! 1
    = Some (in_event_function 42%Z (at_invoke 0 0))
  ∧ completions_of 0 (trace before_invoke_state) ≤ 1
  ∧ ∃ s', run_ok before_invoke_state [thread_step 1] = Some s'
       ∧ pendingOperation_ (factory s') = None
       ∧ complete_with_event_ (factory s') = None.
Proof.
  do 3 (split; [vm_compute; reflexivity|]).
  destruct (proj2 exactly_once_completion before_invoke_run before_invoke_state)
    as [Honce Hstep]; [vm_compute; reflexivity|].
  split; [exact (Honce 0)|].
  destruct (Hstep 1 42%Z 0 0) as (self & s' & _ & H1 & _ & _ & _ & H2 & H3 & _);
    [vm_compute; reflexivity..|].
  exists s'. split; [exact H1|]. split; [exact H2|exact H3].
Defined.

Lemma second_start_is_fatal_witness :
  terminated double_start_state = false
  ∧ factory_alive double_start_state = true
  ∧ frames double_start_state !! 1 = Some (in_start 1 at_cas_pending)
  ∧ pendingOperation_ (factory double_start_state) = Some 0
  ∧ ∃ s', step (thread_step 1) double_start_state = Some s'
       ∧ terminated s' = true
       ∧ pendingOperation_ (factory s') = Some 0.
Proof.
  do 4 (split; [vm_compute; reflexivity|]).
  destruct (second_start_is_fatal double_start_state 1 0 1)
    as (_ & s' & H1 & _ & H2 & H3 & _); [vm_compute; reflexivity..|].
  exists s'. split; [exact H1|]. split; [exact H2|exact H3].
Defined.

Lemma spin_waits_for_publisher_witness :
  run_ok create_event_sender_range window_prefix = Some window_state
  ∧ factory_alive window_state = true
  ∧ frames window_state !! 1 = Some (in_event_function 65%Z (at_spin 0))
  ∧ step (thread_step 1) window_state = Some window_state
  ∧ ∃ j s1,
      frames window_state !! j = Some (in_start 0 at_cas_complete)
      ∧ run_ok create_event_sender_range (window_prefix ++ [thread_step j])
        = Some s1
      ∧ complete_with_event_ (factory s1) = Some 0.
Proof.
  do 3 (split; [vm_compute; reflexivity|]).
  destruct (spin_waits_for_publisher window_prefix window_state 1 65%Z 0)
    as (self & Hself & H); [vm_compute; reflexivity..|].
  simpl in H. destruct H as (H1 & j & s1 & _ & _ & H2 & H3 & _ & H4 & _).
  split; [exact H1|]. exists j, s1. split; [exact H2|]. split; [exact H3|].
  simpl in Hself. injection Hself as <-. exact H4.
Defined.



Lemma advance_does_not_publish_witness :
  run create_event_sender_range [call_start tt tt; range_next 0 0]
  = Some sender_made_state
  ∧ ∃ s', step (call_connect 0 0 100) sender_made_state = Some s'
       ∧ factory s' = factory sender_made_state
       ∧ starts_of (length (heap sender_made_state)) (frames s') = 0.
Proof.
  split; [vm_compute; reflexivity|].
  eexists. split; [vm_compute; reflexivity|].
  destruct (proj1 (proj2 advance_does_not_publish)
              [call_start tt tt; range_next 0 0] 0 0 100 sender_made_state
              (set_heap (heap sender_made_state ++ [OperationState 0 this tt 100])
                 sender_made_state))
    as (H1 & _ & _ & H2 & _); [vm_compute; reflexivity..|].
  split; [exact H1|exact H2].
Defined.

Lemma stop_token_not_consulted_witness :
  forallb (λ a : action Z nat nat unit, negb (is_call_start a))
    (tail (token_run 5)) = true
  ∧ run create_event_sender_range (token_run 5) = Some (token_state 5)
  ∧ (op_stopToken_ <$> heap (token_state 5) !! 0) = Some 5
  ∧ retoken (λ _, 0) (token_state 5) = retoken (λ _, 0) (token_state 9)
  ∧ delivery_action (thread_step 1) (token_state 5) = true
  ∧ retoken (λ _, 0) <$> step (thread_step 1) (token_state 5)
    = retoken (λ _, 0) <$> step (thread_step 1) (token_state 9).
Proof.
  do 2 (split; [vm_compute; reflexivity|]).
  destruct (stop_token_not_consulted (EventType:=Z) (StopToken:=nat)
              (Receiver:=nat) (Registration:=unit)) as (H1 & _ & H3 & _).
  split.
  { destruct (heap (token_state 5) !! 0) as [self|] eqn:Hself;
      [|vm_compute in Hself; discriminate Hself].
    simpl. f_equal.
    apply (H1 5 tt (tail (token_run 5)) (token_state 5) 0 self);
      [vm_compute; reflexivity..|exact Hself]. }
  do 2 (split; [vm_compute; reflexivity|]).
  apply (H3 0 (thread_step 1) (token_state 5) (token_state 9));
    vm_compute; reflexivity.
Defined.

Lemma unstarted_factory_is_inert_witness :
  forallb (λ a : action Z unit nat unit, negb (is_call_start a))
    ([call_event_function 1%Z; thread_step 0] ++ [destroy_factory]) = true
  ∧ ∃ s1 : system Z unit nat unit,
      run create_event_sender_range [call_event_function 1%Z; thread_step 0]
      = Some s1
      ∧ registration_events (trace s1) = []
      ∧ storage_ (factory s1) = storage_empty 0
      ∧ pendingOperation_ (factory s1) = None
      ∧ complete_with_event_ (factory s1) = None.
Proof.
  split; [vm_compute; reflexivity|].
  apply (unstarted_factory_is_inert
           [call_event_function 1%Z; thread_step 0] [destroy_factory]
           (set_factory_alive false
              (final_state [call_event_function 1%Z; thread_step 0])));
    vm_compute; reflexivity.
Defined.

(** ** The schedules on concrete runs *)

Lemma correct_usage_progress_witness :
  run_ok create_event_sender_range before_invoke_run = Some before_invoke_state
  ∧ ∃ s', step (thread_step 1) before_invoke_state = Some s'
          ∧ terminated s' = false.
Proof.
  split; [vm_compute; reflexivity|].
  destruct (correct_usage_progress before_invoke_run before_invoke_state 1
              (in_event_function 42%Z (at_invoke 0 0)))
    as (s' & _ & H & Ht); [vm_compute; reflexivity..|].
  exists s'. split; [exact H|exact Ht].
Defined.

Lemma publish_then_deliver_witness :
  run_ok create_event_sender_range connected_run = Some connected_state
  ∧ ∃ s', run_ok connected_state (whole_start 0 0 ++ whole_delivery 5%Z 1) = Some s'
          ∧ trace s' = trace connected_state ++ [ev_set_value 1 0 100 5%Z]
          ∧ idle s' = true.
Proof.
  split; [vm_compute; reflexivity|].
  destruct (publish_then_deliver connected_run connected_state 0
              (OperationState 0 this tt 100) 5%Z)
    as (s' & H & Htr & _ & _ & _ & _ & Hidle); [vm_compute; reflexivity..|].
  exists s'. split; [exact H|]. split; [exact Htr|exact Hidle].
Defined.

Lemma window_delivery_same_outcome_witness :
  run_ok create_event_sender_range connected_run = Some connected_state
  ∧ run_ok connected_state (window_delivery 0 5%Z 0 3)
    = run_ok connected_state (whole_start 0 0 ++ whole_delivery 5%Z 1).
Proof.
  split; [vm_compute; reflexivity|].
  apply (window_delivery_same_outcome connected_run connected_state 0
           (OperationState 0 this tt 100) 5%Z 3); vm_compute; reflexivity.
Defined.

Lemma restart_is_not_detected_witness :
  ∃ s', run connected_state
          (whole_start 0 0 ++ whole_delivery 5%Z 1
           ++ whole_start 0 2 ++ whole_delivery 6%Z 3) = Some s'
    ∧ terminated s' = false
    ∧ trace s' = trace connected_state
                 ++ [ev_set_value 1 0 100 5%Z; ev_set_value 3 0 100 6%Z].
Proof.
  destruct (restart_is_not_detected connected_state 0
              (OperationState 0 this tt 100) 5%Z 6%Z)
    as (s' & H & Ht & _ & Htr); [vm_compute; reflexivity..|].
  exists s'. split; [exact H|]. split; [exact Ht|exact Htr].
Defined.


Lemma unregister_gets_last_registration_witness :
  run create_event_sender_range two_starts_run = Some two_starts_state
  ∧ trace two_starts_state = [ev_register 1; ev_register 2; ev_unregister 2]
  ∧ well_paired None (trace two_starts_state).
Proof.
  split; [vm_compute; reflexivity|]. split; [vm_compute; reflexivity|].
  apply (unregister_gets_last_registration two_starts_run two_starts_state).
  vm_compute. reflexivity.
Defined.

(** ** Where the events come from *)

Section EventFrames.
Context {EventType StopToken Receiver Registration : Type}
        `{!TriviallyDestructible Registration}.
#[local] Abbreviation system := (system EventType StopToken Receiver Registration).
#[local] Abbreviation action := (action EventType StopToken Receiver Registration).
Implicit Types (s : system) (a : action).

(** A call of the event function keeps its event, and no step but the call
    itself makes one. *)
Lemma event_frame_step a s s' tid e pc' :
  step a s = Some s' → (∀ e0, a ≠ call_event_function e0) →
  frames s' !! tid = Some (in_event_function e pc') →
  ∃ pc, frames s !! tid = Some (in_event_function e pc).
Proof.
  intros (_ & _ & Hv)%step_inv Ha.
  destruct Hv; simpl; try (by eauto);
    try (by intros [(-> & ? & _)|[_ ?]]%list_lookup_insert_Some; simplify_eq; eauto).
  - intros [?|[_ ?]]%lookup_app_Some; [by eauto|]. by destruct (tid - _).
  - exfalso. by eapply Ha.
Qed.

Lemma set_value_delivery (tr : list (event EventType Receiver Registration))
    tid p r e :
  ev_set_value tid p r e ∈ tr → (p, r, e) ∈ deliveries_by tid tr.
Proof.
  induction tr as [|ev tr IH]; [by intros ?%elem_of_nil|].
  intros [<-|Hin]%elem_of_cons.
  - simpl. rewrite bool_decide_true by done. apply elem_of_cons. by left.
  - specialize (IH Hin). destruct ev; simpl; try done.
    case_bool_decide; [apply elem_of_cons; by right|done].
Qed.

(** What a receiver got is the event of the call that handed it over. *)
Lemma delivery_from_frame s tid p r e :
  delivery_inv s → ev_set_value tid p r e ∈ trace s →
  frames s !! tid = Some (in_event_function e (ef_returned (Some p))).
Proof.
  intros Hinv Hin%set_value_delivery. specialize (Hinv tid).
  destruct (frames s !! tid) as [[e' [|?|? ?|[q|]]|? ?]|] eqn:Hfr;
    try (rewrite Hinv in Hin; by apply elem_of_nil in Hin).
  destruct Hinv as (self & _ & Hd). rewrite Hd in Hin.
  apply list_elem_of_singleton in Hin. by simplify_eq.
Qed.

Lemma delivery_inv_terminate s : delivery_inv s → delivery_inv (std_terminate s).
Proof.
  intros Hinv tid. specialize (Hinv tid). simpl.
  rewrite deliveries_by_app. simpl. by rewrite app_nil_r.
Qed.

Lemma step_call_event_inv s s' e :
  step (call_event_function e) s = Some s' →
  s' = set_frames (frames s ++ [in_event_function e at_exchange_pending]) s.
Proof.
  unfold step. destruct (terminated s); [done|].
  destruct (factory_alive s); simpl; [|done]. by intros ?; simplify_eq.
Qed.

Lemma step_destroy_inv s s' rid :
  step (destroy_range rid) s = Some s' →
  ∃ r reg, live_range s rid = Some r
    ∧ storage_ (factory s) = storage_registration reg
    ∧ s' = set_ranges (<[rid := None]> (ranges s))
             (set_factory
                (set_storage (registration_destructor reg) (factory s))
                (emit (ev_unregister reg) s)).
Proof. intros (_ & _ & Hv)%step_inv. inversion Hv. eauto. Qed.

Lemma ranges_nonempty_step a s s' :
  step a s = Some s' → (∀ token reg, a ≠ call_start token reg) →
  ranges s' ≠ [] → ranges s ≠ [].
Proof.
  intros (_ & _ & Hv)%step_inv Ha.
  destruct Hv; simpl; try done.
  - exfalso. by eapply Ha.
  - intros _. by eapply live_range_nonempty.
  - intros _. by eapply live_range_nonempty.
Qed.

End EventFrames.


Module KbdHookFacts.
Import KbdHook.

Section MainFacts.
Context {StopToken Receiver : Type}.
Implicit Types (p : program StopToken Receiver).

Lemma terminated_no_main_step (a : main_action StopToken Receiver) p :
  terminated (bridge p) = true → main_step a p = None.
Proof. unfold main_step. by intros ->. Qed.

(** C7, as the code has it: [start] has no failure result.  Its call starts
    the thread that has yet to install the hook, with nothing registered
    yet, and whenever the process is still running [start] returns the
    range, whatever the thread has done by then.  When [SetWindowsHookExW]
    fails, before or after [start] has returned, the thread calls
    [FormatMessageW], prints the two lines and calls [std::terminate()]: the
    slot is left as it is, and the process makes no further step, so that
    nothing is published afterwards and a [start] that has not returned
    does not return. *)
Theorem hook_failure_terminates :
  (∀ p token,
     terminated (bridge p) = false → factory_alive (bridge p) = true →
     msgThread_ p = None → starting p = None →
     ∃ p', main_step (main_start token) p = Some p'
       ∧ bridge p' = bridge p
       ∧ hHook_ p' = None
       ∧ msgThread_ p' = Some at_self_
       ∧ starting p' = Some token)
  ∧ (∀ p token,
       terminated (bridge p) = false → factory_alive (bridge p) = true →
       starting p = Some token →
       ∃ p', main_step start_returns p = Some p'
         ∧ ranges (bridge p')
           = ranges (bridge p)
             ++ [Some (SenderRange this (SenderFactory this token))]
         ∧ terminated (bridge p') = false
         ∧ msgThread_ p' = msgThread_ p
         ∧ starting p' = None)
  ∧ (∀ p message,
       terminated (bridge p) = false → factory_alive (bridge p) = true →
       msgThread_ p = Some at_SetWindowsHookExW →
       ∃ p', main_run p (hook_failure message) = Some p'
         ∧ terminated (bridge p') = true
         ∧ trace (bridge p') = trace (bridge p) ++ [ev_terminate]
         ∧ console p'
           = console p ++ ["failed to set keyboard hook" +:+ LF;
                           "Error: " +:+ message +:+ LF]
         ∧ factory (bridge p') = factory (bridge p)
         ∧ hHook_ p' = None
         ∧ starting p' = starting p
         ∧ ∀ a, main_step a p' = None).
Proof.
  split; [|split].
  - intros p token Hrun Halive Hth Hst. unfold main_step.
    rewrite Hrun, Hth, Hst, Halive. eexists. split; [done|]. done.
  - intros p token Hrun Halive Hst. unfold main_step, start_return, step.
    rewrite Hrun, Hst. simpl. rewrite ?Hrun, ?Halive. simpl.
    eexists. split; [done|]. done.
  - intros p message Hrun Halive Hpc.
    destruct p as [[f al rs sn hp fr tr term] h th st con].
    simpl in Hrun, Halive, Hpc. subst th term al.
    eexists. split; [reflexivity|]. simpl.
    split; [done|]. split; [done|]. split; [by rewrite <- app_assoc|].
    split; [done|]. split; [done|]. split; [done|].
    intros a. by apply terminated_no_main_step.
Qed.

End MainFacts.

(** C7, counterexample to a typed failure: in [failing_hook_run] followed by
    the failure of [SetWindowsHookExW], the process is terminated (no
    failure value reaches the caller of [start]), and the first operation
    was published before the failure. *)
Lemma registration_failure_is_fatal :
  ¬ (∀ acts message p,
       main_run main_init (acts ++ hook_failure message) = Some p →
       terminated (bridge (StopToken:=unit) (Receiver:=nat) p) = false)
  ∧ ¬ (∀ acts message p,
         main_run main_init (acts ++ hook_failure message) = Some p →
         pendingOperation_ (factory (bridge (StopToken:=unit) (Receiver:=nat) p))
         = None).
Proof.
  assert (main_run main_init (failing_hook_run ++ hook_failure "Access is denied.")
          = Some failed_hook_state) as Hrun by (vm_compute; reflexivity).
  split; intros H; specialize (H _ _ _ Hrun); vm_compute in H; discriminate.
Qed.

Lemma hook_failure_terminates_witness :
  main_run main_init early_failure_run = Some early_failure_state
  ∧ starting early_failure_state = Some tt
  ∧ ∃ p', main_run early_failure_state (hook_failure "Access is denied.")
          = Some p'
       ∧ terminated (bridge p') = true
       ∧ main_step start_returns p' = None.
Proof.
  do 2 (split; [vm_compute; reflexivity|]).
  destruct (proj2 (proj2 hook_failure_terminates) early_failure_state
              "Access is denied.")
    as (p' & H1 & H2 & _ & _ & _ & _ & _ & H5); [vm_compute; reflexivity..|].
  exists p'. split; [exact H1|]. split; [exact H2|exact (H5 start_returns)].
Defined.

End KbdHookFacts.

(** ** The hook procedure *)

Module HookProcFacts.
Import KbdHook HookProc.

Section ProcFacts.
Context {StopToken Receiver : Type}.
Variables WM_KEYDOWN WM_SYSKEYDOWN : WPARAM.
#[local] Abbreviation process := (process StopToken Receiver).
#[local] Abbreviation hook_action := (hook_action StopToken Receiver).
#[local] Abbreviation hook_step := (hook_step WM_KEYDOWN WM_SYSKEYDOWN).
#[local] Abbreviation hook_run := (hook_run WM_KEYDOWN WM_SYSKEYDOWN).
#[local] Abbreviation hook_inv := (hook_inv WM_KEYDOWN WM_SYSKEYDOWN).
#[local] Abbreviation from_key_down := (from_key_down WM_KEYDOWN WM_SYSKEYDOWN).
Implicit Types (p : process) (q : program StopToken Receiver).

Lemma hook_run_invariant (I : process → Prop) :
  (∀ a p p', hook_step a p = Some p' → I p → I p') →
  ∀ acts p p', hook_run p acts = Some p' → I p → I p'.
Proof.
  intros Hstep acts. induction acts as [|a acts IH]; intros p p' Hrun Hp;
    simplify_option_eq; eauto.
Qed.

(** The calls of the hook procedure are kept, with their arguments. *)
Lemma from_key_down_mono p p' tid e :
  (∀ i act, activations p !! i = Some act →
     ∃ act', activations p' !! i = Some act'
       ∧ act_args act' = act_args act ∧ act_fn_ act' = act_fn_ act) →
  from_key_down p tid e → from_key_down p' tid e.
Proof.
  intros Hkeep (i & act & Hi & Hfn & Hw & Hcode & Hkey).
  destruct (Hkeep i act Hi) as (act' & Hi' & Hargs & Hfn').
  exists i, act'. rewrite Hargs, Hfn'. done.
Qed.

Lemma hook_inv_init : hook_inv (hook_init : process).
Proof. split; [by intros tid|done|done|by intros [? ?]|done..]. Qed.

(** A step of the bridge that is not a call of the event function. *)
Lemma hook_inv_bridge_step a p b p' :
  step a (bridge (prog p)) = Some b →
  (∀ e0, a ≠ call_event_function e0) →
  bridge (prog p') = b →
  (ranges b ≠ [] → is_Some (msgThread_ (prog p'))) →
  (is_Some (starting (prog p')) → is_Some (msgThread_ (prog p'))) →
  activations p' = activations p →
  CallNextHookEx_calls p' = CallNextHookEx_calls p →
  hook_inv p → hook_inv p'.
Proof.
  intros Hstep Ha Hb Hth Hst Hact Hcalls [Hd Hf _ _ Hn Hr]. split.
  - rewrite Hb. by eapply delivery_inv_step.
  - rewrite Hb. intros tid e pc Hfr.
    destruct (event_frame_step _ _ _ _ _ _ Hstep Ha Hfr) as [pc0 Hfr0].
    eapply from_key_down_mono, Hf; [|done].
    rewrite Hact. eauto.
  - by rewrite Hb.
  - done.
  - by rewrite Hcalls, Hact.
  - rewrite Hb, Hact. intros i act tid Hi Hfn Hret.
    destruct (Hr i act tid Hi Hfn Hret) as (e & o & Hfr). exists e, o.
    by eapply returned_call_step.
Qed.

(** A step that leaves the bridge as it is, or terminates the process. *)
Lemma hook_inv_same_frames p p' :
  bridge (prog p') = bridge (prog p)
  ∨ bridge (prog p') = std_terminate (bridge (prog p)) →
  (is_Some (msgThread_ (prog p)) → is_Some (msgThread_ (prog p'))) →
  (is_Some (starting (prog p')) → is_Some (msgThread_ (prog p'))) →
  activations p' = activations p →
  CallNextHookEx_calls p' = CallNextHookEx_calls p →
  hook_inv p → hook_inv p'.
Proof.
  intros Hb Hth Hst Hact Hcalls [Hd Hf Ht _ Hn Hr].
  assert (frames (bridge (prog p')) = frames (bridge (prog p))) as Hfr
    by (by destruct Hb as [-> | ->]).
  assert (ranges (bridge (prog p')) = ranges (bridge (prog p))) as Hrg
    by (by destruct Hb as [-> | ->]).
  split.
  - destruct Hb as [-> | ->]; [done|by apply delivery_inv_terminate].
  - rewrite Hfr. intros tid e pc Hfr0.
    eapply from_key_down_mono, Hf; [|done]. rewrite Hact. eauto.
  - rewrite Hrg. auto.
  - done.
  - by rewrite Hcalls, Hact.
  - by rewrite Hfr, Hact.
Qed.

(** What a step of [main_step] does to the bridge. *)
Lemma main_step_inv (a : main_action StopToken Receiver) q q' :
  main_step a q = Some q' →
  (∀ e0, a ≠ on_bridge (call_event_function e0)) →
  (is_Some (starting q) → is_Some (msgThread_ q)) →
  (ranges (bridge q) ≠ [] → is_Some (msgThread_ q)) →
  terminated (bridge q) = false
  ∧ (is_Some (msgThread_ q) → is_Some (msgThread_ q'))
  ∧ (is_Some (starting q') → is_Some (msgThread_ q'))
  ∧ (bridge q' = bridge q
     ∨ bridge q' = std_terminate (bridge q)
     ∨ ∃ a' b, step a' (bridge q) = Some b
         ∧ (∀ e0, a' ≠ call_event_function e0)
         ∧ (ranges b ≠ [] → is_Some (msgThread_ q'))
         ∧ (bridge q' = b ∨ bridge q' = std_terminate b)).
Proof.
  unfold main_step. destruct (terminated (bridge q)) eqn:Hterm; [done|].
  intros H Ha Hst Hrg. split; [done|].
  destruct a as [token| |a|result message].
  - destruct (msgThread_ q) eqn:Hth; [done|].
    destruct (starting q); [done|].
    destruct (factory_alive (bridge q)); [|done]. simplify_eq. simpl.
    split; [by eauto|]. split; [by eauto|]. by left.
  - destruct (starting q) as [token|] eqn:Hs; [|done]. simpl in H.
    unfold start_return in H.
    destruct (step (call_start token (kbdhookstate_of this)) (bridge q))
      as [b|] eqn:Hstep; [|done].
    simplify_eq/=. split; [done|]. split; [by intros [? ?]|].
    right. right. exists (call_start token (kbdhookstate_of this)), b.
    split; [done|]. split; [done|]. split; [|by left].
    intros _. apply Hst. rewrite ?Hs. by eauto.
  - assert (∀ b, step a (bridge q) = Some b →
                 (∀ token reg, a ≠ call_start token reg) →
                 ranges b ≠ [] → is_Some (msgThread_ q)) as Hkeep.
    { intros b Hstep Hns Hne. apply Hrg. by eapply ranges_nonempty_step. }
    destruct a as [token reg|rid|rid|rid i0|sid inst receiver|q0|e0|tid|];
      [done| | | | | |by destruct (Ha e0)| |].
    all: match type of H with
         | context [step ?a' _] =>
             destruct (step a' (bridge q)) as [b|] eqn:Hstep; [|done]
         end.
    all: simplify_eq/=.
    2:{ (* the destructor of a range *)
      unfold kbdhookstate_destructor. simpl.
      destruct (msgThread_ q) eqn:Hth; simpl; rewrite ?Hth.
      - split; [done|]. split; [by eauto|]. right. right.
        eexists _, b. split; [exact Hstep|]. split; [done|].
        split; [by eauto|]. by right.
      - exfalso. apply step_destroy_inv in Hstep as (r & reg & Hr & _).
        destruct Hrg as [? Hx]; [by eapply live_range_nonempty|].
        rewrite ?Hth in Hx. done. }
    all: split; [done|]; split; [done|]; right; right.
    all: eexists _, b; split; [exact Hstep|]; split; [done|].
    all: split; [by eapply Hkeep|by left].
  - destruct (msgThread_ q) as [pc|] eqn:Hth; [|done]. simpl in H.
    destruct pc; simpl in H;
      try destruct (factory_alive (bridge q));
      simplify_eq/=; try done.
    all: split; [by eauto|]; split; [by (rewrite ?Hth; eauto)|].
    all: first [by left | by (right; left)].
Qed.

Lemma hook_inv_step a p p' : hook_step a p = Some p' → hook_inv p → hook_inv p'.
Proof.
  unfold HookProc.hook_step.
  destruct (terminated (bridge (prog p))) eqn:Hterm; [done|].
  destruct a as [a|result|args|i].
  - (* the steps of [main_step] *)
    assert ((∀ e0, a ≠ on_bridge (call_event_function e0)) ∧
            (q ← main_step a (prog p);
             Some (Process q
                     (if writes_self_ a (prog p) then Some (kbdhookstate_of this)
                      else self_ p)
                     (msgThread_returned p) (activations p)
                     (CallNextHookEx_calls p))) = Some p' →
            hook_inv p → hook_inv p') as Hgen.
    { intros [Ha H] Hinv.
      destruct (main_step a (prog p)) as [q|] eqn:Hstep; [|done].
      simpl in H. simplify_eq.
      destruct (main_step_inv a _ _ Hstep Ha (hi_starting _ _ _ Hinv)
                  (hi_thread _ _ _ Hinv))
        as (_ & Hth & Hst & [Hb|[Hb|(a' & b & Hb & Ha' & Hrg & [Hq|Hq])]]).
      - by eapply hook_inv_same_frames, Hinv; simpl; [left|..].
      - by eapply hook_inv_same_frames, Hinv; simpl; [right|..].
      - by eapply (hook_inv_bridge_step a' p b), Hinv.
      - set (p1 := Process (set_bridge b q) (self_ p) (msgThread_returned p)
                     (activations p) (CallNextHookEx_calls p)).
        assert (hook_inv p1) as Hinv1
          by (by eapply (hook_inv_bridge_step a' p b), Hinv).
        by eapply hook_inv_same_frames, Hinv1; simpl; [right|..]. }
    destruct a as [token| |a|result message]; try (by intros H; apply Hgen).
    destruct a; try done; by intros H; apply Hgen.
  - (* the message loop *)
    unfold message_loop.
    destruct (msgThread_ (prog p)) as [[]|]; try done.
    destruct (msgThread_returned p); [done|].
    intros ? Hinv. destruct (result =? 0)%Z; simplify_eq; [|done].
    eapply hook_inv_same_frames, Hinv; simpl; [by left|done| |done|done].
    apply (hi_starting _ _ _ Hinv).
  - (* a call of the hook procedure *)
    unfold HookProc.KbdHookProc.
    destruct (KbdHookProc_forwards _ _ (self_ p) args) eqn:Hfw.
    + destruct (step (call_event_function (wParam args)) (bridge (prog p)))
        as [b|] eqn:Hstep; [|done].
      simpl. intros ? [Hd Hf Ht Hs Hn Hr]; simplify_eq.
      pose proof (delivery_inv_step _ _ _ Hstep Hd) as Hd'.
      apply step_call_event_inv in Hstep as ->.
      split; simpl.
      * done.
      * intros tid e pc [Hfr|[Hlen Hfr]]%lookup_app_Some.
        -- eapply from_key_down_mono, Hf; [|done]. simpl.
           intros i act Hi. exists act. split; [by apply lookup_app_l_Some|done].
        -- destruct (tid - _) eqn:Hd0; simplify_eq/=.
           eexists (length (activations p)), _.
           split; [by apply list_lookup_middle|]. simpl.
           assert (tid = length (frames (bridge (prog p)))) as -> by lia.
           unfold KbdHookProc_forwards in Hfw.
           destruct (self_ p); [|done].
           apply andb_true_iff in Hfw as [Hc Hk].
           apply orb_true_iff in Hk. split; [done|]. split; [done|].
           split; [lia|]. destruct Hk; [left|right]; lia.
      * done.
      * done.
      * rewrite countb_app. simpl. lia.
      * intros i act tid [Hi|[_ Hi]]%lookup_app_Some Hfn Hret.
        -- destruct (Hr i act tid Hi Hfn Hret) as (e & o & Hfr).
           exists e, o. by apply lookup_app_l_Some.
        -- destruct (i - _); simplify_eq/=.
    + intros ? [Hd Hf Ht Hs Hn Hr]; simplify_eq. split; simpl; try done.
      * intros tid e pc Hfr. eapply from_key_down_mono, Hf; [|done]. simpl.
        intros i act Hi. exists act. split; [by apply lookup_app_l_Some|done].
      * rewrite countb_app, length_app. simpl. lia.
      * intros i act tid [Hi|[_ Hi]]%lookup_app_Some Hfn Hret; [by eauto|].
        destruct (i - _); simplify_eq/=.
  - (* the return of a call of the hook procedure *)
    unfold KbdHookProc_return.
    destruct (activations p !! i) as [act|] eqn:Hi; [|done]. simpl.
    destruct (act_returned act) eqn:Hret0; [done|].
    destruct (act_fn_ act) as [tid|] eqn:Hfn; [|done]. simpl.
    destruct (frames (bridge (prog p)) !! tid) as [[e [| | |o]|]|] eqn:Hfr0;
      try done.
    simpl. destruct (factory_alive (bridge (prog p))); [|done].
    intros ? [Hd Hf Ht Hs Hn Hr]; simplify_eq. split; simpl; try done.
    + intros tid' e' pc Hfr. eapply from_key_down_mono, Hf; [|done]. simpl.
      intros j act' Hj. destruct (decide (i = j)) as [->|Hne].
      * rewrite list_lookup_insert_eq by (by eapply lookup_lt_Some).
        eexists. split; [done|]. simpl. by simplify_eq.
      * rewrite list_lookup_insert_ne by done. eauto.
    + pose proof (countb_insert act_returned _ _ _
                    (Activation (act_args act) (Some tid) true) Hi) as Hc.
      rewrite Hret0 in Hc. simpl in Hc. rewrite length_app. simpl. lia.
    + intros j act' tid' [(-> & <- & _)|[Hne Hj]]%list_lookup_insert_Some Hfn' Hret.
      * simpl in Hfn'. simplify_eq. eauto.
      * eauto.
Qed.

(** X9: whatever the system calls the hook procedure with, and whenever,
    a receiver is handed nothing but the message identifier of a call of
    [KbdHookProc] with a code that is not negative and the identifier
    [WM_KEYDOWN] or [WM_SYSKEYDOWN]: each [set_value] is made by the call of
    the event function such a call of [KbdHookProc] made. *)
Theorem only_key_down_is_delivered (acts : list hook_action) p tid op receiver e :
  hook_run hook_init acts = Some p →
  ev_set_value tid op receiver e ∈ trace (bridge (prog p)) →
  from_key_down p tid e.
Proof.
  intros Hrun Hin.
  pose proof (hook_run_invariant hook_inv hook_inv_step acts _ _ Hrun hook_inv_init)
    as [Hd Hf _ _ _ _].
  eapply Hf. by eapply delivery_from_frame.
Qed.

Lemma terminated_no_hook_step a p :
  terminated (bridge (prog p)) = true → hook_step a p = None.
Proof. unfold HookProc.hook_step. by intros ->. Qed.

(** X10: in this program the range cannot end: its destructor calls the
    unregister function of [main], which does nothing, and then destroys the
    [kbdhookstate] and with it a thread that is still joinable, whether it
    is installing the hook, in the message loop or has returned: the process
    is terminated. *)
Theorem range_end_is_fatal (acts : list hook_action) p rid p' :
  hook_run hook_init acts = Some p →
  hook_step (of_main (on_bridge (destroy_range rid))) p = Some p' →
  terminated (bridge (prog p')) = true
  ∧ trace (bridge (prog p'))
    = trace (bridge (prog p)) ++ [ev_unregister (kbdhookstate_of this); ev_terminate]
  ∧ CallNextHookEx_calls p' = CallNextHookEx_calls p
  ∧ ∀ a, hook_step a p' = None.
Proof.
  intros Hrun Hstep.
  pose proof (hook_run_invariant hook_inv hook_inv_step acts _ _ Hrun hook_inv_init)
    as [_ _ Hth _ _ _].
  unfold HookProc.hook_step in Hstep.
  destruct (terminated (bridge (prog p))) eqn:Hterm; [done|].
  unfold main_step in Hstep. rewrite Hterm in Hstep.
  destruct (step (destroy_range rid) (bridge (prog p))) as [b|] eqn:Hb; [|done].
  simpl in Hstep. simplify_eq.
  apply step_destroy_inv in Hb as (r & [[]] & Hr & Hsto & ->).
  destruct Hth as [pc Hpc]; [by eapply live_range_nonempty|].
  unfold kbdhookstate_destructor. simpl. rewrite Hpc. simpl.
  split; [done|]. split; [by rewrite <- app_assoc|]. split; [done|].
  intros a. by apply terminated_no_hook_step.
Qed.
Lemma process_eta p :
  set_prog (set_bridge (bridge (prog p)) (prog p)) p = p.
Proof. by destruct p as [[] ? ? ? ?]. Qed.

Lemma hook_thread_step p tid :
  hook_step (of_main (on_bridge (thread_step tid))) p
  = b ← step (thread_step tid) (bridge (prog p));
    Some (set_prog (set_bridge b (prog p)) p).
Proof.
  unfold HookProc.hook_step, main_step.
  destruct (terminated (bridge (prog p))) eqn:Hterm.
  - unfold step. by rewrite Hterm.
  - by destruct (step (thread_step tid) (bridge (prog p))).
Qed.

(** Steps of one call of the event function, seen from the process. *)
Lemma hook_run_thread_steps tid k (rest : list hook_action) : ∀ p b,
  run (bridge (prog p)) (repeat (thread_step tid) k) = Some b →
  hook_run p (repeat (of_main (on_bridge (thread_step tid))) k ++ rest)
  = hook_run (set_prog (set_bridge b (prog p)) p) rest.
Proof.
  induction k as [|k IH]; intros p b Hrun; simpl in *.
  - simplify_eq. by rewrite process_eta.
  - rewrite hook_thread_step.
    destruct (step (thread_step tid) (bridge (prog p))) as [b1|]; [|done].
    simpl in *. by rewrite (IH (set_prog (set_bridge b1 (prog p)) p) b Hrun).
Qed.

Lemma hook_call_forwarded p a :
  terminated (bridge (prog p)) = false →
  factory_alive (bridge (prog p)) = true →
  KbdHookProc_forwards WM_KEYDOWN WM_SYSKEYDOWN (self_ p) a = true →
  hook_step (call_KbdHookProc a) p
  = Some (Process
            (set_bridge
               (set_frames (frames (bridge (prog p))
                            ++ [in_event_function (wParam a) at_exchange_pending])
                  (bridge (prog p))) (prog p))
            (self_ p) (msgThread_returned p)
            (activations p
             ++ [Activation a (Some (length (frames (bridge (prog p))))) false])
            (CallNextHookEx_calls p)).
Proof.
  intros Hterm Halive Hfw.
  unfold HookProc.hook_step, HookProc.KbdHookProc, step.
  by rewrite Hterm, Hfw, Halive.
Qed.

Lemma hook_return p i a tid e o :
  terminated (bridge (prog p)) = false →
  factory_alive (bridge (prog p)) = true →
  activations p !! i = Some (Activation a (Some tid) false) →
  frames (bridge (prog p)) !! tid = Some (in_event_function e (ef_returned o)) →
  hook_step (return_KbdHookProc i) p
  = Some (Process (prog p) (self_ p) (msgThread_returned p)
            (<[i := Activation a (Some tid) true]> (activations p))
            (CallNextHookEx_calls p ++ [(hHook_ (prog p), a)])).
Proof.
  intros Hterm Halive Hi Hfr.
  unfold HookProc.hook_step, KbdHookProc_return.
  rewrite Hterm, Hi. simpl. rewrite Hfr. simpl. by rewrite Halive.
Qed.

(** X11: one call of [KbdHookProc], on its own.  A call that is not for a
    key going down is passed on with a NULL handle and does not reach the
    factory.  A call for a key going down is passed on with [hHook_], after
    its call of [fn_] has returned: with no operation pending the key
    reaches no receiver; with an operation published, the receiver of that
    operation gets the message identifier, before the key is passed on, and
    the slot is empty again. *)
Theorem hook_call_outcome p a :
  terminated (bridge (prog p)) = false →
  factory_alive (bridge (prog p)) = true →
  (KbdHookProc_forwards WM_KEYDOWN WM_SYSKEYDOWN (self_ p) a = false →
   ∃ p', hook_step (call_KbdHookProc a) p = Some p'
     ∧ prog p' = prog p
     ∧ CallNextHookEx_calls p' = CallNextHookEx_calls p ++ [(None, a)])
  ∧ (KbdHookProc_forwards WM_KEYDOWN WM_SYSKEYDOWN (self_ p) a = true →
     pendingOperation_ (factory (bridge (prog p))) = None →
     ∃ p', hook_run p (whole_hook_call a (length (frames (bridge (prog p))))
                         (length (activations p)) 1) = Some p'
       ∧ trace (bridge (prog p')) = trace (bridge (prog p))
       ∧ factory (bridge (prog p')) = factory (bridge (prog p))
       ∧ CallNextHookEx_calls p'
         = CallNextHookEx_calls p ++ [(hHook_ (prog p), a)])
  ∧ (KbdHookProc_forwards WM_KEYDOWN WM_SYSKEYDOWN (self_ p) a = true →
     ∀ op selfq,
       pendingOperation_ (factory (bridge (prog p))) = Some op →
       complete_with_event_ (factory (bridge (prog p))) = Some (op_inst selfq) →
       heap (bridge (prog p)) !! op = Some selfq →
       ∃ p', hook_run p (whole_hook_call a (length (frames (bridge (prog p))))
                           (length (activations p)) 3) = Some p'
         ∧ trace (bridge (prog p'))
           = trace (bridge (prog p))
             ++ [ev_set_value (length (frames (bridge (prog p)))) op
                   (op_receiver_ selfq) (wParam a)]
         ∧ pendingOperation_ (factory (bridge (prog p'))) = None
         ∧ complete_with_event_ (factory (bridge (prog p'))) = None
         ∧ CallNextHookEx_calls p'
           = CallNextHookEx_calls p ++ [(hHook_ (prog p), a)]).
Proof.
  intros Hterm Halive. split; [|split].
  - intros Hfw. unfold HookProc.hook_step, HookProc.KbdHookProc.
    rewrite Hterm, Hfw. eauto.
  - intros Hfw Hp.
    set (b := bridge (prog p)) in *.
    set (b1 := set_frames (frames b ++ [in_event_function (wParam a) at_exchange_pending]) b).
    assert (step (call_event_function (wParam a)) b = Some b1) as H1
      by (apply step_view_step; [done..|constructor]).
    assert (frames b1 !! length (frames b)
            = Some (in_event_function (wParam a) at_exchange_pending)) as Hfr
      by (by apply list_lookup_middle).
    set (b2 := set_frame (length (frames b))
                 (in_event_function (wParam a) (ef_returned None))
                 (set_factory (set_pendingOperation None (factory b1)) b1)).
    assert (step (thread_step (length (frames b))) b1 = Some b2) as H2
      by (apply step_view_step; [done|done|by apply sv_drop]).
    eexists. unfold whole_hook_call. cbn [hook_run HookProc.hook_run].
    rewrite hook_call_forwarded by done. cbn [mbind option_bind].
    erewrite (hook_run_thread_steps _ 1 _ _ b2)
      by (change (run b1 [thread_step (length (frames b))] = Some b2);
          by rewrite (run_step _ _ _ _ H2)).
    cbn [hook_run HookProc.hook_run].
    erewrite hook_return; [| done | done | by apply list_lookup_middle | ].
    2:{ simpl. apply list_lookup_insert_eq. rewrite length_app. simpl. lia. }
    cbn [mbind option_bind]. split; [done|]. simpl. split; [done|].
    split; [|done]. fold b. rewrite <- Hp. by rewrite set_pendingOperation_id.
  - intros Hfw op selfq Hp Hc Hq.
    set (b := bridge (prog p)) in *.
    set (b1 := set_frames (frames b ++ [in_event_function (wParam a) at_exchange_pending]) b).
    assert (step (call_event_function (wParam a)) b = Some b1) as H1
      by (apply step_view_step; [done..|constructor]).
    pose proof (delivery_steps b op selfq (wParam a) Hterm Halive Hp Hc Hq) as Hd.
    unfold whole_delivery in Hd. rewrite (run_step _ _ _ _ H1) in Hd.
    eexists. unfold whole_hook_call. cbn [hook_run HookProc.hook_run].
    rewrite hook_call_forwarded by done. cbn [mbind option_bind].
    erewrite (hook_run_thread_steps _ 3) by exact Hd.
    cbn [hook_run HookProc.hook_run].
    erewrite hook_return; [| done | done | by apply list_lookup_middle | ].
    2:{ simpl. apply lookup_snoc0. }
    cbn [mbind option_bind]. simpl. done.
Qed.

(** X12: every call of [KbdHookProc] that has returned has called
    [CallNextHookEx] once, and no other call of it is made; a call that
    handed the key to [fn_] passes it on only when [fn_] has returned, so
    that what the receiver does in [set_value] is done before the next hook
    sees the key. *)
Theorem passed_on_after_fn_ (acts : list hook_action) p :
  hook_run hook_init acts = Some p →
  length (CallNextHookEx_calls p) = countb act_returned (activations p)
  ∧ ∀ i act tid,
      activations p !! i = Some act → act_fn_ act = Some tid →
      act_returned act = true →
      ∃ e o, frames (bridge (prog p)) !! tid
             = Some (in_event_function e (ef_returned o)).
Proof.
  intros Hrun.
  by pose proof (hook_run_invariant hook_inv hook_inv_step acts _ _ Hrun
                   hook_inv_init) as [_ _ _ Hn Hr].
Qed.

End ProcFacts.

Lemma only_key_down_is_delivered_witness :
  hook_run 256%Z 260%Z hook_init key_delivered_run = Some key_delivered_state
  ∧ trace (bridge (prog key_delivered_state))
    = [ev_register (kbdhookstate_of this); ev_set_value 1 0 100 256%Z]
  ∧ from_key_down 256%Z 260%Z key_delivered_state 1 256%Z.
Proof.
  split; [vm_compute; reflexivity|]. split; [vm_compute; reflexivity|].
  apply (only_key_down_is_delivered 256%Z 260%Z key_delivered_run
           key_delivered_state 1 0 100 256%Z); [vm_compute; reflexivity|].
  apply elem_of_cons. right. apply elem_of_cons. left. reflexivity.
Defined.

Lemma range_end_is_fatal_witness :
  hook_run 256%Z 260%Z hook_init key_run = Some key_pending_state
  ∧ hook_step 256%Z 260%Z (of_main (on_bridge (destroy_range 0))) key_pending_state
    = Some range_ended_state
  ∧ terminated (bridge (prog range_ended_state)) = true.
Proof.
  split; [vm_compute; reflexivity|]. split; [vm_compute; reflexivity|].
  apply (range_end_is_fatal 256%Z 260%Z key_run key_pending_state 0
           range_ended_state); vm_compute; reflexivity.
Defined.

Lemma hook_call_outcome_witness :
  ∃ p', hook_run 256%Z 260%Z key_pending_state
          (whole_hook_call (HookArgs 0%Z 256%Z 30%Z) 1 0 3) = Some p'
    ∧ trace (bridge (prog p'))
      = trace (bridge (prog key_pending_state)) ++ [ev_set_value 1 0 100 256%Z]
    ∧ CallNextHookEx_calls p' = [(Some 1%Z, HookArgs 0%Z 256%Z 30%Z)].
Proof.
  destruct (hook_call_outcome 256%Z 260%Z key_pending_state (HookArgs 0%Z 256%Z 30%Z))
    as (_ & _ & H); [vm_compute; reflexivity..|].
  destruct (H eq_refl 0 (OperationState 0 this tt 100))
    as (p' & Hrun & Htr & _ & _ & Hcalls); [vm_compute; reflexivity..|].
  exists p'. split; [exact Hrun|]. split; [exact Htr|exact Hcalls].
Defined.

Lemma passed_on_after_fn__witness :
  hook_run 256%Z 260%Z hook_init key_delivered_run = Some key_delivered_state
  ∧ length (CallNextHookEx_calls key_delivered_state)
    = countb act_returned (activations key_delivered_state).
Proof.
  split; [vm_compute; reflexivity|].
  apply (passed_on_after_fn_ 256%Z 260%Z key_delivered_run key_delivered_state).
  vm_compute. reflexivity.
Defined.

End HookProcFacts.
